(** * dsl.hpp: the scanner and the token stream

    A shallow embedding of [namespace dsl] of [src/dsl.hpp]: the value types
    [StringRef], [TokenType] and [Token], the private scanner
    [TokenStream::tokenize] and the public cursor operations of
    [TokenStream].

    Modelling conventions.
    - The source buffer [string] is a [list ascii]; a [const char *] into it
      is the offset from [string.c_str()], a [nat] (pointer arithmetic never
      leaves the buffer, so it cannot wrap).
    - [int line] and [int col] are [Z]; a signed overflow is undefined in
      C++, so the model speaks of buffers of fewer than 2^31 characters.
    - [size_t pos] is a [Z] in [0, 2^64) and every [pos++] and [pos--] is
      written with its wrap-around ([wrap64]).
    - [std::isspace], [std::isdigit], [std::isalpha] and [std::isalnum] are
      those of the "C" locale; they answer false on the bytes 128..255.
    - [assert] is enabled (no [NDEBUG]): a failed assertion ends the
      program, outcome [AssertFail].  The expression inside an [assert] is
      evaluated, with its side effects, exactly when assertions are enabled.
    - every [while] loop of the cursor operations runs on fuel; running out
      of fuel is the separate outcome [OutOfFuel], and is proved not to
      happen. *)

From Stdlib Require Import Ascii String DecimalString List ZArith Lia Bool Arith.
Import ListNotations.

Local Open Scope char_scope.
Local Open Scope nat_scope.

(** ** Characters *)

Module Char.

Definition newline : ascii := "010".
Definition dquote : ascii := "034".
Definition squote : ascii := "'".
Definition backslash : ascii := "\".

Definition code (c : ascii) : nat := nat_of_ascii c.

(** [std::isspace]: space, and the five controls from tab to carriage
    return. *)
Definition isspace (c : ascii) : bool :=
  (code c =? 32) || ((9 <=? code c) && (code c <=? 13)).

Definition isdigit (c : ascii) : bool :=
  (48 <=? code c) && (code c <=? 57).

Definition isalpha (c : ascii) : bool :=
  ((65 <=? code c) && (code c <=? 90)) ||
  ((97 <=? code c) && (code c <=? 122)).

Definition isalnum (c : ascii) : bool := isalpha c || isdigit c.

End Char.

Import Char.

(** ** Token model *)

(** [struct StringRef]: the pair of pointers [begin], [end]. *)
Record StringRef : Set := mkStringRef {
  begin_ : nat;
  end_ : nat
}.

Inductive TokenType : Set := NUMBER | LITERAL | STRING | OPERATOR | SPECIAL.

Record Token : Set := mkToken {
  type : TokenType;
  value : StringRef;
  line : Z;
  col : Z
}.

Definition TokenType_eqb (a b : TokenType) : bool :=
  match a, b with
  | NUMBER, NUMBER | LITERAL, LITERAL | STRING, STRING
  | OPERATOR, OPERATOR | SPECIAL, SPECIAL => true
  | _, _ => false
  end.

Section Buffer.

(** The characters of [std::string string]. *)
Variable buffer : list ascii.

(** [std::string(b, e)] for two pointers into the buffer. *)
Definition chars_between (b e : nat) : list ascii :=
  firstn (e - b) (skipn b buffer).

(** [StringRef::length] *)
Definition length_ (r : StringRef) : nat := end_ r - begin_ r.

(** [StringRef::str] *)
Definition str (r : StringRef) : list ascii :=
  chars_between (begin_ r) (end_ r).

(** [StringRef::operator==(const char *s)]; [s] lists the characters
    before the terminating NUL, so [strlen(s)] is its length and
    [strncmp] compares all of them. *)
Definition StringRef_eq (r : StringRef) (s : list ascii) : bool :=
  (length_ r =? length s) &&
  (if list_eq_dec ascii_dec (firstn (length s) (skipn (begin_ r) buffer)) s
   then true else false).

(** [Token::is_float] *)
Definition is_float (t : Token) : bool :=
  TokenType_eqb (type t) NUMBER &&
  existsb (fun c => (c =? ".")%char) (str (value t)).

End Buffer.

(** ** The scanner: [TokenStream::tokenize] *)

(** The locals of [tokenize] together with the three members it fills:
    [cur_line] and [cur_col] are the locals [line] and [col], and [tokens_],
    [lines_] and [lines_scan_] the members [tokens], [lines] and
    [lines_scan] while they are being built. *)
Record Scan : Set := mkScan {
  cur : nat;
  start : nat;
  cur_line : Z;
  cur_col : Z;
  tokens_ : list Token;
  lines_ : list (list ascii);
  lines_scan_ : list nat
}.

(** The lambda [add_token]. *)
Definition add_token (st : Scan) (ty : TokenType) (token_start token_end : nat)
  : Scan :=
  {| cur := cur st;
     start := start st;
     cur_line := cur_line st;
     cur_col := (cur_col st + Z.of_nat (token_end - token_start))%Z;
     tokens_ :=
       tokens_ st ++
       [mkToken ty (mkStringRef token_start token_end)
                (cur_line st) (cur_col st)];
     lines_ := lines_ st;
     lines_scan_ := lines_scan_ st |}.

Definition set_cur (st : Scan) (c : nat) : Scan :=
  {| cur := c; start := start st; cur_line := cur_line st;
     cur_col := cur_col st; tokens_ := tokens_ st; lines_ := lines_ st;
     lines_scan_ := lines_scan_ st |}.

(** The branches of the [if]/[else if] chain of the loop body, in the order
    the source tries them. *)
Inductive Rule : Set :=
| RNewline | RSpace | RComment | RString | RNumber | RLiteral | ROperator.

(** [cur + 1 < end && p(cur[1])], on the characters after [cur[0]]. *)
Definition next_char_is (p : ascii -> bool) (rest : list ascii) : bool :=
  match rest with
  | c2 :: _ => p c2
  | [] => false
  end.

(** The conditions of the chain, for [cur[0] = c] followed by [rest]. *)
Definition classify (c : ascii) (rest : list ascii) : Rule :=
  if (c =? newline)%char then RNewline
  else if isspace c then RSpace
  else if (c =? "/")%char && next_char_is (fun c2 => (c2 =? "/")%char) rest
       then RComment
  else if (c =? dquote)%char || (c =? squote)%char then RString
  else if isdigit c || ((c =? ".")%char && next_char_is isdigit rest)
       then RNumber
  else if isalpha c || (c =? "_")%char then RLiteral
  else ROperator.

(** [while (cur < end && cur[0] != '\n') cur++;] as the number of
    characters it passes, from the characters at [cur]. *)
Fixpoint skip_comment (rest : list ascii) : nat :=
  match rest with
  | [] => 0
  | c :: r => if (c =? newline)%char then 0 else S (skip_comment r)
  end.

(** The loop of the string rule, from the character after the opening
    quote: [while (cur < end && cur[0] != quote)
             { if (cur[0] == '\\' && cur + 1 < end) cur++; cur++; }]. *)
Fixpoint scan_string (quote : ascii) (rest : list ascii) : nat :=
  match rest with
  | [] => 0
  | c :: r =>
      if (c =? quote)%char then 0
      else if (c =? backslash)%char then
        match r with
        | [] => 1
        | _ :: r' => 2 + scan_string quote r'
        end
      else 1 + scan_string quote r
  end.

(** The loop of the number rule, with its flag [has_dot]. *)
Fixpoint scan_number (has_dot : bool) (rest : list ascii) : nat :=
  match rest with
  | [] => 0
  | c :: r =>
      if isdigit c || (negb has_dot && (c =? ".")%char)
      then S (scan_number (if (c =? ".")%char then true else has_dot) r)
      else 0
  end.

(** [while (cur < end && (std::isalnum(cur[0]) || cur[0] == '_')) cur++;] *)
Fixpoint scan_literal (rest : list ascii) : nat :=
  match rest with
  | [] => 0
  | c :: r =>
      if isalnum c || (c =? "_")%char then S (scan_literal r) else 0
  end.

(** The characters that may open a two-character operator. *)
Definition operator_first (c : ascii) : bool :=
  (c =? "=")%char || (c =? "!")%char || (c =? "<")%char || (c =? ">")%char ||
  (c =? "&")%char || (c =? "|")%char || (c =? "+")%char || (c =? "-")%char.

(** The default branch: [cur++], and one more [cur++] under the two nested
    conditions; the result is the length of the operator. *)
Definition scan_operator (op_start : ascii) (rest : list ascii) : nat :=
  match rest with
  | c2 :: _ =>
      if operator_first op_start then
        if (c2 =? "=")%char ||
           ((op_start =? "&")%char && (c2 =? "&")%char) ||
           ((op_start =? "|")%char && (c2 =? "|")%char)
        then 2 else 1
      else 1
  | [] => 1
  end.

Section Tokenize.

Variable string_ : list ascii.

Let end_of_input : nat := length string_.

(** One turn of [while (cur < end)]. *)
Definition tokenize_body (st : Scan) : Scan :=
  match skipn (cur st) string_ with
  | [] => st
  | c :: rest =>
      match classify c rest with
      | RNewline =>
          {| cur := cur st + 1;
             start := cur st + 1;
             cur_line := (cur_line st + 1)%Z;
             cur_col := 0%Z;
             tokens_ := tokens_ st;
             lines_ :=
               lines_ st ++ [chars_between string_ (start st) (cur st)];
             lines_scan_ := lines_scan_ st ++ [start st] |}
      | RSpace =>
          {| cur := cur st + 1;
             start := start st;
             cur_line := cur_line st;
             cur_col := (cur_col st + 1)%Z;
             tokens_ := tokens_ st;
             lines_ := lines_ st;
             lines_scan_ := lines_scan_ st |}
      | RComment =>
          set_cur st (cur st + skip_comment (c :: rest))
      | RString =>
          let str_start := cur st in
          let after_loop := cur st + 1 + scan_string c rest in
          let after_quote :=
            if after_loop <? end_of_input then after_loop + 1
            else after_loop in
          add_token (set_cur st after_quote) STRING str_start after_quote
      | RNumber =>
          let num_start := cur st in
          let after_loop := cur st + scan_number false (c :: rest) in
          add_token (set_cur st after_loop) NUMBER num_start after_loop
      | RLiteral =>
          let id_start := cur st in
          let after_loop := cur st + scan_literal (c :: rest) in
          add_token (set_cur st after_loop) LITERAL id_start after_loop
      | ROperator =>
          let op_start := cur st in
          let after := cur st + scan_operator c rest in
          add_token (set_cur st after) OPERATOR op_start after
      end
  end.

(** [while (cur < end) { ... }], at most [fuel] turns. *)
Fixpoint tokenize_loop (fuel : nat) (st : Scan) : Scan :=
  match fuel with
  | 0 => st
  | S fuel' =>
      if cur st <? end_of_input
      then tokenize_loop fuel' (tokenize_body st)
      else st
  end.

(** The statement after the loop: the last line, when it is not empty. *)
Definition tokenize_finish (st : Scan) : Scan :=
  if start st <? end_of_input then
    {| cur := cur st; start := start st; cur_line := cur_line st;
       cur_col := cur_col st; tokens_ := tokens_ st;
       lines_ :=
         lines_ st ++ [chars_between string_ (start st) end_of_input];
       lines_scan_ := lines_scan_ st ++ [start st] |}
  else st.

Definition tokenize_init : Scan :=
  {| cur := 0; start := 0; cur_line := 0%Z; cur_col := 0%Z;
     tokens_ := []; lines_ := []; lines_scan_ := [] |}.

(** Every turn moves [cur] forward, so [length string] turns are
    enough (lemma [tokenize_loop_reaches_end]). *)
Definition tokenize : Scan :=
  tokenize_finish (tokenize_loop end_of_input tokenize_init).

End Tokenize.

(** A token as a test would print it: its kind and its text. *)
Definition token_view (buffer : list ascii) (t : Token)
  : TokenType * string :=
  (type t, string_of_list_ascii (str buffer (value t))).

Definition scan_view (input : list ascii) : list (TokenType * string) :=
  map (token_view input) (tokens_ (tokenize input)).

Definition src (s : string) : list ascii := list_ascii_of_string s.

(** ** The token stream: [class TokenStream] *)

(** The members of the class; [string_] is the member [string]. *)
Record TokenStream : Set := mkTokenStream {
  tokens : list Token;
  pos : Z;
  string_ : list ascii;
  lines : list (list ascii);
  lines_scan : list nat
}.

(** The constructor: [pos(0), string(input)], then [tokenize()]. *)
Definition new_TokenStream (input : list ascii) : TokenStream :=
  let sc := tokenize input in
  {| tokens := tokens_ sc;
     pos := 0%Z;
     string_ := input;
     lines := lines_ sc;
     lines_scan := lines_scan_ sc |}.

(** What a member function does: it returns a value and leaves a stream, or
    an [assert] fails, or (in the model only) a loop runs out of fuel. *)
Inductive outcome (A : Type) : Type :=
| Ok (a : A) (s : TokenStream)
| AssertFail (msg : string)
| OutOfFuel.

Arguments Ok {A} a s.
Arguments AssertFail {A} msg.
Arguments OutOfFuel {A}.

Definition M (A : Type) : Type := TokenStream -> outcome A.

Definition ret {A} (a : A) : M A := fun s => Ok a s.

Definition bind {A B} (m : M A) (k : A -> M B) : M B :=
  fun s =>
    match m s with
    | Ok a s' => k a s'
    | AssertFail msg => AssertFail msg
    | OutOfFuel => OutOfFuel
    end.

Declare Scope stream_scope.
Delimit Scope stream_scope with stream.
Notation "x <- m ;; k" := (bind m (fun x => k))
  (at level 61, m at next level, right associativity) : stream_scope.
Notation "m ;; k" := (bind m (fun _ => k))
  (at level 61, right associativity) : stream_scope.

(** [assert(e && "msg")]: [e] is evaluated, effects included. *)
Definition assert_ (e : M bool) (msg : string) : M unit :=
  fun s =>
    match e s with
    | Ok true s' => Ok tt s'
    | Ok false _ => AssertFail msg
    | AssertFail m => AssertFail m
    | OutOfFuel => OutOfFuel
    end.

Definition wrap64 (z : Z) : Z := (z mod 2 ^ 64)%Z.

(** [tokens.size()] *)
Definition size (s : TokenStream) : Z := Z.of_nat (length (tokens s)).

(** [tokens[i]], which the source reads only under [i < tokens.size()]. *)
Definition token_at (s : TokenStream) (i : Z) : Token :=
  nth (Z.to_nat i) (tokens s) (mkToken NUMBER (mkStringRef 0 0) 0%Z 0%Z).

Definition set_pos (s : TokenStream) (p : Z) : TokenStream :=
  {| tokens := tokens s; pos := p; string_ := string_ s;
     lines := lines s; lines_scan := lines_scan s |}.

(** [pos++] and [pos--] on a [size_t]. *)
Definition pos_incr (s : TokenStream) : TokenStream :=
  set_pos s (wrap64 (pos s + 1)).
Definition pos_decr (s : TokenStream) : TokenStream :=
  set_pos s (wrap64 (pos s - 1)).

Local Open Scope stream_scope.

Definition peek : M Token :=
  fun s =>
    if (pos s <? size s)%Z then Ok (token_at s (pos s)) s
    else AssertFail "Attempted to peek past end of token stream".

Definition next : M Token :=
  fun s =>
    if (pos s <? size s)%Z then Ok (token_at s (pos s)) (pos_incr s)
    else AssertFail "Attempted to read past end of token stream".

Definition consume (str_ : list ascii) : M bool :=
  fun s =>
    if (pos s <? size s)%Z &&
       StringRef_eq (string_ s) (value (token_at s (pos s))) str_
    then Ok true (pos_incr s)
    else Ok false s.

(** The [std::find_if] of [get_list_until]. *)
Definition is_end_token (s : TokenStream) (end_tokens : list (list ascii))
           (t : Token) : bool :=
  existsb (fun e => StringRef_eq (string_ s) (value t) e) end_tokens.

Fixpoint get_list_until_loop (fuel : nat) (end_tokens : list (list ascii))
         (consume_ : bool) (result : list Token) : M (list Token) :=
  fun s =>
    match fuel with
    | 0 => OutOfFuel
    | S fuel' =>
        if (pos s <? size s)%Z then
          let t := token_at s (pos s) in
          if is_end_token s end_tokens t then
            if consume_ then Ok result (pos_incr s) else Ok result s
          else
            (t' <- next ;;
             get_list_until_loop fuel' end_tokens consume_ (result ++ [t'])) s
        else Ok result s
    end.

(** Each turn that does not leave the loop moves [pos] forward by one, so
    one more turn than there are tokens is enough. *)
Definition get_list_until (end_tokens : list (list ascii)) (consume_ : bool)
  : M (list Token) :=
  fun s => get_list_until_loop (S (length (tokens s))) end_tokens consume_ [] s.

Definition unwrap_parentheses : M (list Token) :=
  assert_ (consume (src "("))
          "Expected '(' at the beginning of parentheses" ;;
  result <- get_list_until [src ")"] true ;;
  assert_ (consume (src ")")) "Expected ')' at the end of parentheses" ;;
  ret result.

Definition is_empty {A} (l : list A) : bool :=
  match l with [] => true | _ => false end.

Fixpoint token_groups_loop (fuel : nat) (end_s separator : list ascii)
         (groups : list (list Token)) (current_group : list Token)
  : M (list (list Token) * list Token) :=
  fun s =>
    match fuel with
    | 0 => OutOfFuel
    | S fuel' =>
        if (pos s <? size s)%Z then
          (at_end <- consume end_s ;;
           if at_end then ret (groups, current_group)
           else
             at_sep <- consume separator ;;
             if at_sep then
               if negb (is_empty current_group)
               then token_groups_loop fuel' end_s separator
                                      (groups ++ [current_group]) []
               else token_groups_loop fuel' end_s separator
                                      groups current_group
             else
               t <- next ;;
               token_groups_loop fuel' end_s separator
                                 groups (current_group ++ [t])) s
        else Ok (groups, current_group) s
    end.

Definition get_token_groups_in_between (start_s end_s separator : list ascii)
  : M (list (list Token)) :=
  assert_ (consume start_s) "Expected start token at the beginning" ;;
  fun s =>
    (gc <- token_groups_loop (S (length (tokens s))) end_s separator [] [] ;;
     let (groups, current_group) := gc in
     if negb (is_empty current_group)
     then ret (groups ++ [current_group])
     else ret groups) s.

Definition has_more_tokens : M bool :=
  fun s => Ok (pos s <? size s)%Z s.

Definition eof : M bool :=
  fun s => Ok (pos s >=? size s)%Z s.

Definition move_back : M unit :=
  fun s =>
    if (pos s >? 0)%Z then Ok tt (pos_decr s)
    else AssertFail
      "Attempted to move back before the beginning of the token stream".

Definition move_forward : M unit :=
  fun s =>
    if (pos s <? size s)%Z then Ok tt (pos_incr s)
    else AssertFail
      "Attempted to move forward past the end of the token stream".

(** [static_cast<int>] of a [size_t]. *)
Definition static_cast_int (z : Z) : Z :=
  ((z + 2 ^ 31) mod 2 ^ 32 - 2 ^ 31)%Z.

Definition get_line (line_number : Z) : M (list ascii) :=
  fun s =>
    if (line_number >=? 0)%Z &&
       (line_number <? static_cast_int (Z.of_nat (length (lines s))))%Z
    then Ok (nth (Z.to_nat line_number) (lines s) []) s
    else AssertFail "Invalid line number".

(** [operator<<] of an [int]: its decimal digits. *)
Definition decimal (z : Z) : list ascii :=
  src (DecimalString.NilZero.string_of_int (Z.to_int z)).

(** [print_error_at_current]; the value is the text written to
    [std::cerr], [std::endl] being a newline. *)
Definition print_error_at_current (message : list ascii) : M (list ascii) :=
  fun s =>
    if (pos s <? size s)%Z then
      let token := token_at s (pos s) in
      (text <- get_line (line token) ;;
       ret (src "Error at line " ++ decimal (line token + 1) ++
            src ", col " ++ decimal (col token) ++ src ": " ++
            message ++ [newline] ++
            text ++ [newline] ++
            repeat " "%char (Z.to_nat (col token)) ++ src "^" ++ [newline])) s
    else
      Ok (src "Error at end of file: " ++ message ++ [newline]) s.

Definition tokens_view (s : TokenStream) (l : list Token) :=
  map (token_view (string_ s)) l.

(** ** What one turn of the scanner loop consumed

    The source keeps no record of the characters it skips.  [pieces] replays
    the loop with the same body and notes, for every turn, the rule that
    fired, the characters [from .. upto) the turn moved [cur] over, and the
    tokens the turn appended. *)

Record Piece : Set := mkPiece {
  rule : Rule;
  from : nat;
  upto : nat;
  emitted : list Token
}.

Section Pieces.

Variable input : list ascii.

Definition turn_piece (st : Scan) : Piece :=
  let st' := tokenize_body input st in
  {| rule :=
       match skipn (cur st) input with
       | c :: rest => classify c rest
       | [] => RSpace
       end;
     from := cur st;
     upto := cur st';
     emitted := skipn (length (tokens_ st)) (tokens_ st') |}.

Fixpoint scan_pieces (fuel : nat) (st : Scan) : list Piece :=
  match fuel with
  | 0 => []
  | S fuel' =>
      if cur st <? length input
      then turn_piece st :: scan_pieces fuel' (tokenize_body input st)
      else []
  end.

Definition pieces : list Piece :=
  scan_pieces (length input) (tokenize_init).

Definition piece_text (p : Piece) : list ascii :=
  chars_between input (from p) (upto p).

End Pieces.

(** The pieces follow one another from [a] to [b], none of them empty. *)
Fixpoint chained (a : nat) (ps : list Piece) (b : nat) : Prop :=
  match ps with
  | [] => a = b
  | p :: ps' => from p = a /\ a < upto p /\ chained (upto p) ps' b
  end.

(** The kind of token a rule emits; the first three rules emit none. *)
Definition rule_token (r : Rule) : option TokenType :=
  match r with
  | RNewline | RSpace | RComment => None
  | RString => Some STRING
  | RNumber => Some NUMBER
  | RLiteral => Some LITERAL
  | ROperator => Some OPERATOR
  end.

(** A piece is either skipped text or exactly one token that spans it. *)
Definition piece_ok (p : Piece) : Prop :=
  match rule_token (rule p) with
  | None => emitted p = []
  | Some ty =>
      exists l c,
        emitted p = [mkToken ty (mkStringRef (from p) (upto p)) l c]
  end.

(** The text of a skipped piece, by the rule that skipped it: one newline,
    one whitespace character, or a comment from its two slashes up to, and
    without, the next newline. *)
Definition skipped_text (r : Rule) (text : list ascii) : Prop :=
  match r with
  | RNewline => text = [newline]
  | RSpace => exists c, text = [c] /\ isspace c = true
  | RComment => exists l, text = "/"%char :: "/"%char :: l /\ ~ In newline l
  | _ => True
  end.

(** The tokens a turn appends, by the rule that fired. *)
Definition emitted_by (r : Rule) (st st' : Scan) : list Token :=
  match rule_token r with
  | None => []
  | Some ty =>
      [mkToken ty (mkStringRef (cur st) (cur st'))
               (cur_line st) (cur_col st)]
  end.

(** ** Vocabulary of the specification *)

(** The characters after an opening quote [q] hold no closing quote: every
    occurrence of [q] among them is the character after a backslash that
    the scanner took as an escape. *)
Inductive unterminated (q : ascii) : list ascii -> Prop :=
| unterminated_end :
    unterminated q []
| unterminated_escape_end :
    backslash <> q -> unterminated q [backslash]
| unterminated_escape (c : ascii) (r : list ascii) :
    backslash <> q -> unterminated q r ->
    unterminated q (backslash :: c :: r)
| unterminated_plain (c : ascii) (r : list ascii) :
    c <> q -> c <> backslash -> unterminated q r ->
    unterminated q (c :: r).

(** The two-character operators: one of [= ! < > & | + -] followed by [=],
    or the pair [&&], or the pair [||]. *)
Definition two_char_operator (c : ascii) (rest : list ascii) : bool :=
  match rest with
  | c2 :: _ =>
      (existsb (Ascii.eqb c) (src "=!<>&|+-") && (c2 =? "=")%char) ||
      ((c =? "&")%char && (c2 =? "&")%char) ||
      ((c =? "|")%char && (c2 =? "|")%char)
  | [] => false
  end.

(** The number of ['.'] in a text. *)
Definition dots (l : list ascii) : nat := count_occ ascii_dec l ".".

(** A text of digits with at most one ['.']. *)
Definition number_text (l : list ascii) : Prop :=
  Forall (fun c => isdigit c = true \/ c = ".") l /\ dots l <= 1.

(** [unwrap_parentheses] as a build with [NDEBUG] compiles it: the two
    [assert] lines expand to nothing, their calls of [consume] included. *)
Definition unwrap_parentheses_ndebug : M (list Token) :=
  (result <- get_list_until [src ")"] true ;;
   ret result)%stream.

(** ** Vocabulary of the stream invariant *)

(** [0 <= cursor <= len(tokens)] *)
Definition cursor_inv (s : TokenStream) : Prop :=
  (0 <= pos s <= size s)%Z.

(** Everything but the cursor is as it was. *)
Definition only_cursor_moved (s s' : TokenStream) : Prop :=
  tokens s' = tokens s /\ string_ s' = string_ s /\
  lines s' = lines s /\ lines_scan s' = lines_scan s.

(** A call of one of the public member functions, with its arguments. *)
Inductive Op : Type :=
| OpPeek
| OpNext
| OpConsume (str_ : list ascii)
| OpGetListUntil (end_tokens : list (list ascii)) (consume_ : bool)
| OpUnwrapParentheses
| OpGetTokenGroupsInBetween (start_s end_s separator : list ascii)
| OpHasMoreTokens
| OpEof
| OpMoveBack
| OpMoveForward
| OpGetLine (line_number : Z)
| OpPrintErrorAtCurrent (message : list ascii).

Definition discard {A} (m : M A) : M unit := (_ <- m ;; ret tt)%stream.

(** The call, its value dropped. *)
Definition exec (o : Op) : M unit :=
  match o with
  | OpPeek => discard peek
  | OpNext => discard next
  | OpConsume str_ => discard (consume str_)
  | OpGetListUntil end_tokens consume_ =>
      discard (get_list_until end_tokens consume_)
  | OpUnwrapParentheses => discard unwrap_parentheses
  | OpGetTokenGroupsInBetween start_s end_s separator =>
      discard (get_token_groups_in_between start_s end_s separator)
  | OpHasMoreTokens => discard has_more_tokens
  | OpEof => discard eof
  | OpMoveBack => move_back
  | OpMoveForward => move_forward
  | OpGetLine line_number => discard (get_line line_number)
  | OpPrintErrorAtCurrent message => discard (print_error_at_current message)
  end.

(** A member function keeps the invariant: from a stream that satisfies it,
    a call that returns leaves a stream that satisfies it and differs in the
    cursor only, and the model's fuel runs out only on a vector too long
    for a [size_t]. *)
Definition cursor_safe {A} (m : M A) : Prop :=
  forall s, cursor_inv s ->
    match m s with
    | Ok _ s' => cursor_inv s' /\ only_cursor_moved s s'
    | AssertFail _ => True
    | OutOfFuel => (2 ^ 64 <= size s)%Z
    end.

(** The cursor sits on a token whose text is [str_]. *)
Definition cursor_on (s : TokenStream) (str_ : list ascii) : Prop :=
  (pos s < size s)%Z /\
  StringRef_eq (string_ s) (value (token_at s (pos s))) str_ = true.

(** ** Vocabulary of the line table and of token positions *)

(** The recorded lines, each followed by a newline. *)
Definition join_lines (ls : list (list ascii)) : list ascii :=
  concat (map (fun l => l ++ [newline]) ls).

(** The offsets at which consecutive lines start, the first at [from]. *)
Fixpoint line_offsets (from : nat) (ls : list (list ascii)) : list nat :=
  match ls with
  | [] => []
  | l :: ls' => from :: line_offsets (from + length l + 1) ls'
  end.

(** [text] is what the buffer holds from offset [off] on. *)
Definition line_at (input text : list ascii) (off : nat) : Prop :=
  off + length text <= length input /\
  text = chars_between input off (off + length text).

(** The token's [line] is an entry of the line table, the token lies inside
    that line, and its [col] is its distance from the start of the line. *)
Definition token_on_line (input : list ascii) (ls : list (list ascii))
           (offs : list nat) (t : Token) : Prop :=
  exists (k : nat) (text : list ascii) (off : nat),
    line t = Z.of_nat k /\
    nth_error ls k = Some text /\
    nth_error offs k = Some off /\
    off <= begin_ (value t) /\
    begin_ (value t) < end_ (value t) /\
    end_ (value t) <= off + length text /\
    col t = Z.of_nat (begin_ (value t) - off) /\
    line_at input text off.

(** The token lies on the line the scanner is still reading. *)
Definition token_pending (st : Scan) (t : Token) : Prop :=
  line t = Z.of_nat (length (lines_ st)) /\
  start st <= begin_ (value t) /\
  begin_ (value t) < end_ (value t) /\
  end_ (value t) <= cur st /\
  col t = Z.of_nat (begin_ (value t) - start st).

(** What holds of the locals of [tokenize] at every turn of its loop.  The
    comment rule moves [cur] and leaves [col] alone; it stops on a newline
    or at the end, which is the second case of [inv_col]. *)
Record scan_inv (input : list ascii) (st : Scan) : Prop := mk_scan_inv {
  inv_bounds : start st <= cur st /\ cur st <= length input;
  inv_line : cur_line st = Z.of_nat (length (lines_ st));
  inv_col :
    cur_col st = Z.of_nat (cur st - start st) \/
    skipn (cur st) input = [] \/
    exists r, skipn (cur st) input = newline :: r;
  inv_join : join_lines (lines_ st) = firstn (start st) input;
  inv_offsets : lines_scan_ st = line_offsets 0 (lines_ st);
  inv_tokens :
    Forall (fun t => token_on_line input (lines_ st) (lines_scan_ st) t \/
                     token_pending st t)
           (tokens_ st)
}.

(** The spans follow one another between [from] and [upto] without
    overlap, none of them empty. *)
Fixpoint spans_ordered (from : nat) (ts : list Token) (upto : nat) : Prop :=
  match ts with
  | [] => from <= upto
  | t :: ts' =>
      from <= begin_ (value t) /\
      begin_ (value t) < end_ (value t) /\
      spans_ordered (end_ (value t)) ts' upto
  end.

(** The characters a literal is made of. *)
Definition literal_char (c : ascii) : bool := isalnum c || (c =? "_")%char.

(** The lexical shape of a token of kind [ty] with text [text], followed in
    the buffer by [following]. *)
Definition token_shape (ty : TokenType) (text following : list ascii)
  : Prop :=
  match ty with
  | NUMBER =>
      number_text text /\ existsb isdigit text = true /\
      next_char_is isdigit following = false
  | LITERAL =>
      (exists c l, text = c :: l /\
                   (isalpha c || (c =? "_")%char) = true /\
                   forallb literal_char l = true) /\
      next_char_is literal_char following = false
  | STRING =>
      exists q body,
        (q = dquote \/ q = squote) /\ unterminated q body /\
        (text = q :: body ++ [q] \/ (text = q :: body /\ following = []))
  | OPERATOR => 1 <= length text <= 2
  | SPECIAL => False
  end.

(** ** Vocabulary of the stream operations *)

(** The token's text is [x], as [consume] tests it. *)
Definition token_is (s : TokenStream) (x : list ascii) (t : Token) : bool :=
  StringRef_eq (string_ s) (value t) x.

(** The tokens from the cursor on. *)
Definition rest_tokens (s : TokenStream) : list Token :=
  skipn (Z.to_nat (pos s)) (tokens s).

(** The tokens before the first one that satisfies [p]. *)
Fixpoint take_until (p : Token -> bool) (l : list Token) : list Token :=
  match l with
  | [] => []
  | t :: l' => if p t then [] else t :: take_until p l'
  end.

(** The cursor after [get_list_until]: past the tokens taken, and past the
    end token when there is one and it is to be consumed. *)
Definition pos_after_list (s : TokenStream) (consume_ : bool)
           (taken : list Token) : Z :=
  (pos s + Z.of_nat (length taken) +
   (if consume_ && (length taken <? length (rest_tokens s))%nat
    then 1 else 0))%Z.

(** Every token's pair of pointers lies inside the buffer. *)
Definition refs_in_buffer (s : TokenStream) : Prop :=
  Forall (fun t => begin_ (value t) <= end_ (value t) /\
                   end_ (value t) <= length (string_ s))
         (tokens s).

(** * Properties *)

(** ** Lists and buffers *)

Lemma firstn_plus {A} (x y : nat) (l : list A) :
  firstn (x + y) l = firstn x l ++ firstn y (skipn x l).
Proof.
  revert l; induction x as [|x IH]; intros l; simpl.
  - reflexivity.
  - destruct l as [|a l]; simpl.
    + now rewrite firstn_nil.
    + now rewrite IH.
Qed.

Lemma chars_between_app (l : list ascii) (a b c : nat) :
  a <= b -> b <= c ->
  chars_between l a c = chars_between l a b ++ chars_between l b c.
Proof.
  intros Hab Hbc. unfold chars_between.
  replace (c - a) with ((b - a) + (c - b)) by lia.
  rewrite firstn_plus, skipn_skipn.
  now replace (b - a + a) with b by lia.
Qed.

Lemma chars_between_same (l : list ascii) (a : nat) :
  chars_between l a a = [].
Proof. unfold chars_between. now rewrite Nat.sub_diag. Qed.

Lemma chars_between_all (l : list ascii) :
  chars_between l 0 (length l) = l.
Proof. unfold chars_between. now rewrite Nat.sub_0_r, skipn_0, firstn_all. Qed.

Lemma skipn_at {A} (l : list A) (n : nat) :
  n < length l ->
  exists c rest, skipn n l = c :: rest /\ length rest = length l - n - 1.
Proof.
  intros Hn. destruct (skipn n l) as [|c rest] eqn:E.
  - apply skipn_all_iff in E. lia.
  - exists c, rest. split; [reflexivity|].
    pose proof (length_skipn n l) as L. rewrite E in L. simpl in L. lia.
Qed.

(** ** The inner loops stay inside the buffer *)

Lemma skip_comment_le (l : list ascii) : skip_comment l <= length l.
Proof.
  induction l as [|c r IH]; simpl; [lia|].
  destruct (c =? newline)%char; lia.
Qed.

Lemma scan_string_le (q : ascii) (l : list ascii) :
  scan_string q l <= length l.
Proof.
  assert (H : forall n l, length l <= n -> scan_string q l <= length l).
  { induction n as [|n IH]; intros [|c r] Hl; simpl in *; try lia.
    destruct (c =? q)%char; [lia|].
    destruct (c =? backslash)%char.
    - destruct r as [|c' r']; simpl in *; [lia|].
      specialize (IH r'). lia.
    - specialize (IH r). lia. }
  now apply (H (length l)).
Qed.

Lemma scan_number_le (d : bool) (l : list ascii) :
  scan_number d l <= length l.
Proof.
  revert d; induction l as [|c r IH]; intros d; simpl; [lia|].
  destruct (isdigit c || (negb d && (c =? ".")%char)); [|lia].
  specialize (IH (if (c =? ".")%char then true else d)). lia.
Qed.

Lemma scan_literal_le (l : list ascii) : scan_literal l <= length l.
Proof.
  induction l as [|c r IH]; simpl; [lia|].
  destruct (isalnum c || (c =? "_")%char); lia.
Qed.

Lemma scan_operator_bounds (c : ascii) (rest : list ascii) :
  1 <= scan_operator c rest <= 2 /\ scan_operator c rest <= S (length rest).
Proof.
  unfold scan_operator. destruct rest as [|c2 r]; simpl; [lia|].
  destruct (operator_first c); [|lia].
  destruct ((c2 =? "=")%char || (c =? "&")%char && (c2 =? "&")%char
            || (c =? "|")%char && (c2 =? "|")%char); lia.
Qed.

(** The rules that loop start by taking the character they were chosen
    on. *)
Lemma classify_comment (c : ascii) (rest : list ascii) :
  classify c rest = RComment -> 1 <= skip_comment (c :: rest).
Proof.
  unfold classify. simpl. destruct (c =? newline)%char; [discriminate|lia].
Qed.

Lemma classify_number (c : ascii) (rest : list ascii) :
  classify c rest = RNumber -> 1 <= scan_number false (c :: rest).
Proof.
  unfold classify. simpl.
  destruct (c =? newline)%char; [discriminate|].
  destruct (isspace c); [discriminate|].
  destruct ((c =? "/")%char && _); [discriminate|].
  destruct ((c =? dquote)%char || _); [discriminate|].
  destruct (isdigit c) eqn:D; simpl.
  - lia.
  - destruct (c =? ".")%char; simpl; [lia|].
    destruct (isalpha c || _); discriminate.
Qed.

Lemma classify_literal (c : ascii) (rest : list ascii) :
  classify c rest = RLiteral -> 1 <= scan_literal (c :: rest).
Proof.
  unfold classify. simpl.
  destruct (c =? newline)%char; [discriminate|].
  destruct (isspace c); [discriminate|].
  destruct ((c =? "/")%char && _); [discriminate|].
  destruct ((c =? dquote)%char || _); [discriminate|].
  destruct (isdigit c || _); [discriminate|].
  unfold isalnum.
  destruct (isalpha c); simpl; [lia|].
  destruct (c =? "_")%char; simpl; [|discriminate].
  rewrite orb_true_r. lia.
Qed.

(** ** One turn of the loop *)

Section Turn.

Variable input : list ascii.

Lemma tokenize_body_turn (st : Scan) (c : ascii) (rest : list ascii) :
  skipn (cur st) input = c :: rest ->
  cur st < cur (tokenize_body input st) <= length input /\
  tokens_ (tokenize_body input st) =
    tokens_ st ++
    emitted_by (classify c rest) st (tokenize_body input st).
Proof.
  intros E.
  assert (L : length rest = length input - cur st - 1 /\
              cur st < length input).
  { pose proof (length_skipn (cur st) input) as L.
    rewrite E in L. simpl in L. lia. }
  destruct L as [L Hlt].
  unfold tokenize_body, emitted_by. rewrite E.
  destruct (classify c rest) eqn:R; simpl.
  - rewrite app_nil_r. split; [lia|reflexivity].
  - rewrite app_nil_r. split; [lia|reflexivity].
  - rewrite app_nil_r. split; [|reflexivity].
    pose proof (classify_comment _ _ R) as P.
    pose proof (skip_comment_le (c :: rest)) as B.
    simpl in B. simpl in P. lia.
  - split; [|reflexivity].
    pose proof (scan_string_le c rest) as B.
    destruct (cur st + 1 + scan_string c rest <? length input) eqn:K.
    + apply Nat.ltb_lt in K. lia.
    + lia.
  - split; [|reflexivity].
    pose proof (classify_number _ _ R) as P.
    pose proof (scan_number_le false (c :: rest)) as B.
    simpl in B. simpl in P. lia.
  - split; [|reflexivity].
    pose proof (classify_literal _ _ R) as P.
    pose proof (scan_literal_le (c :: rest)) as B.
    simpl in B. simpl in P. lia.
  - split; [|reflexivity].
    pose proof (scan_operator_bounds c rest) as B. lia.
Qed.

Lemma tokenize_body_advances (st : Scan) :
  cur st < length input ->
  cur st < cur (tokenize_body input st) <= length input.
Proof.
  intros H. destruct (skipn_at input (cur st) H) as (c & rest & E & _).
  exact (proj1 (tokenize_body_turn st c rest E)).
Qed.

(** ** The whole loop *)

Lemma tokenize_loop_done (fuel : nat) (st : Scan) :
  length input <= cur st -> tokenize_loop input fuel st = st.
Proof.
  intros H. destruct fuel as [|fuel]; simpl; [reflexivity|].
  destruct (cur st <? length input) eqn:K; [|reflexivity].
  apply Nat.ltb_lt in K. lia.
Qed.

Lemma tokenize_loop_plus (n m : nat) (st : Scan) :
  tokenize_loop input (n + m) st =
  tokenize_loop input m (tokenize_loop input n st).
Proof.
  revert st; induction n as [|n IH]; intros st; simpl; [reflexivity|].
  destruct (cur st <? length input) eqn:K.
  - apply IH.
  - apply Nat.ltb_ge in K.
    symmetry. now apply tokenize_loop_done.
Qed.

(** An invariant of the loop body is an invariant of the loop. *)
Lemma tokenize_loop_invariant (P : Scan -> Prop) :
  (forall st, P st -> cur st < length input ->
              P (tokenize_body input st)) ->
  forall fuel st, P st -> P (tokenize_loop input fuel st).
Proof.
  intros Hbody fuel; induction fuel as [|fuel IH]; intros st HP; simpl.
  - assumption.
  - destruct (cur st <? length input) eqn:K; [|assumption].
    apply Nat.ltb_lt in K. apply IH, Hbody; assumption.
Qed.

Lemma tokenize_loop_le (fuel : nat) (st : Scan) :
  cur st <= length input ->
  cur (tokenize_loop input fuel st) <= length input.
Proof.
  apply (tokenize_loop_invariant (fun s => cur s <= length input)).
  intros s _ H. apply tokenize_body_advances in H. lia.
Qed.

(** With as much fuel as there are characters left the loop leaves
    through its condition. *)
Lemma tokenize_loop_reaches_end (fuel : nat) (st : Scan) :
  cur st <= length input -> length input - cur st <= fuel ->
  cur (tokenize_loop input fuel st) = length input.
Proof.
  revert st; induction fuel as [|fuel IH]; intros st Hle Hfuel; simpl.
  - lia.
  - destruct (cur st <? length input) eqn:K.
    + apply Nat.ltb_lt in K.
      pose proof (tokenize_body_advances st K) as A.
      apply IH; lia.
    + apply Nat.ltb_ge in K. lia.
Qed.

Lemma tokenize_finish_same (st : Scan) :
  cur (tokenize_finish input st) = cur st /\
  tokens_ (tokenize_finish input st) = tokens_ st /\
  cur_line (tokenize_finish input st) = cur_line st /\
  cur_col (tokenize_finish input st) = cur_col st.
Proof.
  unfold tokenize_finish.
  destruct (start st <? length input); simpl; repeat split.
Qed.

(** The loop from a state met on the way ends where the loop from the
    start ends. *)
Lemma tokenize_loop_from (n : nat) :
  tokenize_loop input (length input) tokenize_init =
  tokenize_loop input (length input)
                (tokenize_loop input n tokenize_init).
Proof.
  rewrite <- tokenize_loop_plus, Nat.add_comm, tokenize_loop_plus.
  symmetry. apply tokenize_loop_done.
  rewrite tokenize_loop_reaches_end; simpl; lia.
Qed.

(** ** The pieces *)

Lemma scan_pieces_chained (fuel : nat) (st : Scan) :
  cur st <= length input -> length input - cur st <= fuel ->
  chained (cur st) (scan_pieces input fuel st) (length input).
Proof.
  revert st; induction fuel as [|fuel IH]; intros st Hle Hfuel; simpl.
  - lia.
  - destruct (cur st <? length input) eqn:K; simpl.
    + apply Nat.ltb_lt in K.
      pose proof (tokenize_body_advances st K) as A.
      repeat split; [lia|].
      apply IH; lia.
    + apply Nat.ltb_ge in K. lia.
Qed.

Lemma chained_text (ps : list Piece) (a b : nat) :
  chained a ps b ->
  a <= b /\
  concat (map (piece_text input) ps) = chars_between input a b.
Proof.
  revert a; induction ps as [|p ps IH]; intros a H; simpl in *.
  - subst. split; [lia|]. now rewrite chars_between_same.
  - destruct H as (Hf & Hlt & Hc).
    destruct (IH _ Hc) as [Hle Ht].
    split; [lia|].
    rewrite Ht. unfold piece_text. rewrite Hf.
    symmetry. apply chars_between_app; lia.
Qed.

Lemma turn_piece_ok (st : Scan) :
  cur st < length input ->
  piece_ok (turn_piece input st) /\
  tokens_ (tokenize_body input st) =
    tokens_ st ++ emitted (turn_piece input st).
Proof.
  intros H. destruct (skipn_at input (cur st) H) as (c & rest & E & _).
  destruct (tokenize_body_turn st c rest E) as [_ T].
  unfold piece_ok, turn_piece; simpl. rewrite E, T.
  rewrite skipn_app, skipn_all, Nat.sub_diag. simpl.
  split; [|reflexivity].
  unfold emitted_by. destruct (rule_token (classify c rest)); eauto.
Qed.

Lemma scan_pieces_tokens (fuel : nat) (st : Scan) :
  Forall piece_ok (scan_pieces input fuel st) /\
  tokens_ (tokenize_loop input fuel st) =
    tokens_ st ++ concat (map emitted (scan_pieces input fuel st)).
Proof.
  revert st; induction fuel as [|fuel IH]; intros st; simpl.
  - split; [constructor|now rewrite app_nil_r].
  - destruct (cur st <? length input) eqn:K; simpl.
    + apply Nat.ltb_lt in K.
      destruct (turn_piece_ok st K) as [Hok Ht].
      destruct (IH (tokenize_body input st)) as [Hall Hts].
      split; [now constructor|].
      rewrite Hts. rewrite Ht at 1. now rewrite <- app_assoc.
    + split; [constructor|now rewrite app_nil_r].
Qed.

End Turn.

(** ** The skipped text *)

Lemma classify_newline_inv (c : ascii) (rest : list ascii) :
  classify c rest = RNewline -> c = newline.
Proof.
  unfold classify. destruct (c =? newline)%char eqn:E.
  - intros _. now apply Ascii.eqb_eq.
  - repeat match goal with
           | |- context [if ?b then _ else _] => destruct b
           end; discriminate.
Qed.

Lemma classify_space_inv (c : ascii) (rest : list ascii) :
  classify c rest = RSpace -> isspace c = true.
Proof.
  unfold classify. destruct (c =? newline)%char; [discriminate|].
  destruct (isspace c); [reflexivity|].
  repeat match goal with
         | |- context [if ?b then _ else _] => destruct b
         end; discriminate.
Qed.

Lemma classify_comment_inv (c : ascii) (rest : list ascii) :
  classify c rest = RComment ->
  c = "/"%char /\ exists r, rest = "/"%char :: r.
Proof.
  unfold classify. destruct (c =? newline)%char; [discriminate|].
  destruct (isspace c); [discriminate|].
  destruct (c =? "/")%char eqn:E; simpl.
  - apply Ascii.eqb_eq in E. subst c.
    destruct rest as [|c2 r]; simpl; [discriminate|].
    destruct (c2 =? "/")%char eqn:E2.
    + apply Ascii.eqb_eq in E2. subst c2. eauto.
    + discriminate.
  - repeat match goal with
           | |- context [if ?b then _ else _] => destruct b
           end; discriminate.
Qed.

Lemma skip_comment_no_newline (l : list ascii) :
  ~ In newline (firstn (skip_comment l) l).
Proof.
  induction l as [|c r IH]; simpl; [tauto|].
  destruct (c =? newline)%char eqn:E; simpl; [tauto|].
  apply Ascii.eqb_neq in E. intros [H|H]; [now apply E|now apply IH].
Qed.

Lemma turn_piece_skipped (input : list ascii) (st : Scan) :
  cur st < length input ->
  skipped_text (rule (turn_piece input st))
               (piece_text input (turn_piece input st)).
Proof.
  intros H. destruct (skipn_at input (cur st) H) as (c & rest & E & _).
  unfold piece_text, turn_piece, chars_between, tokenize_body. simpl.
  rewrite E.
  destruct (classify c rest) eqn:R; simpl; try exact I.
  - apply classify_newline_inv in R. subst c.
    now replace (cur st + 1 - cur st) with 1 by lia.
  - apply classify_space_inv in R.
    replace (cur st + 1 - cur st) with 1 by lia. simpl. eauto.
  - apply classify_comment_inv in R. destruct R as (-> & r & ->).
    rewrite Nat.add_comm, Nat.add_sub. simpl.
    exists (firstn (skip_comment r) r). split; [reflexivity|].
    apply skip_comment_no_newline.
Qed.

Lemma scan_pieces_skipped (input : list ascii) (fuel : nat) (st : Scan) :
  Forall (fun p => skipped_text (rule p) (piece_text input p))
         (scan_pieces input fuel st).
Proof.
  revert st; induction fuel as [|fuel IH]; intros st; simpl.
  - constructor.
  - destruct (cur st <? length input) eqn:K; [|constructor].
    apply Nat.ltb_lt in K. constructor; [|apply IH].
    now apply turn_piece_skipped.
Qed.

(** ** The scanner as a whole *)

Lemma tokenize_ends_at_end (input : list ascii) :
  cur (tokenize input) = length input.
Proof.
  unfold tokenize.
  rewrite (proj1 (tokenize_finish_same input _)).
  apply tokenize_loop_reaches_end; simpl; lia.
Qed.

(** C4: for every source text the loop of [tokenize] ends at the end of the
    text; the stretches of text its turns moved over follow one another
    from the first character to the last, none empty, so that their texts
    concatenated give the source back; each stretch was either skipped by
    the newline, whitespace or comment rule, and is then one newline, one
    whitespace character or a comment without its newline, or is exactly
    the span of the one token that turn emitted; and the tokens of the
    stream are those emitted tokens, in order. *)
Theorem tokenize_reconstructs_input (input : list ascii) :
  cur (tokenize input) = length input /\
  chained 0 (pieces input) (length input) /\
  concat (map (piece_text input) (pieces input)) = input /\
  Forall piece_ok (pieces input) /\
  Forall (fun p => skipped_text (rule p) (piece_text input p))
         (pieces input) /\
  tokens_ (tokenize input) = concat (map emitted (pieces input)).
Proof.
  unfold tokenize, pieces.
  destruct (tokenize_finish_same input
              (tokenize_loop input (length input) tokenize_init))
    as (Hc & Ht & _).
  assert (Hch : chained 0 (scan_pieces input (length input) tokenize_init)
                        (length input)).
  { apply (scan_pieces_chained input (length input) tokenize_init);
      simpl; lia. }
  rewrite Hc, Ht.
  split; [apply tokenize_loop_reaches_end; simpl; lia|].
  split; [exact Hch|].
  split.
  { destruct (chained_text input _ _ _ Hch) as [_ T].
    rewrite T. apply chars_between_all. }
  split; [apply scan_pieces_tokens|].
  split; [apply scan_pieces_skipped|].
  now rewrite (proj2 (scan_pieces_tokens input (length input)
                                          tokenize_init)).
Qed.

(** C10: every token [tokenize] emits has kind NUMBER, LITERAL, STRING or
    OPERATOR; none has kind SPECIAL. *)
Theorem tokenize_never_special (input : list ascii) :
  Forall (fun t => (type t = NUMBER \/ type t = LITERAL \/
                    type t = STRING \/ type t = OPERATOR) /\
                   type t <> SPECIAL)
         (tokens_ (tokenize input)).
Proof.
  unfold tokenize.
  rewrite (proj1 (proj2 (tokenize_finish_same input _))).
  apply (tokenize_loop_invariant input
           (fun st => Forall (fun t => (type t = NUMBER \/ type t = LITERAL \/
                                        type t = STRING \/ type t = OPERATOR)
                                       /\ type t <> SPECIAL) (tokens_ st))).
  - intros st HP Hlt.
    destruct (skipn_at input (cur st) Hlt) as (c & rest & E & _).
    rewrite (proj2 (tokenize_body_turn input st c rest E)).
    apply Forall_app. split; [assumption|].
    unfold emitted_by.
    destruct (classify c rest); simpl; repeat constructor;
      simpl; auto; discriminate.
  - constructor.
Qed.

(** ** The string rule *)

Lemma skipn_nth_error {A} (l : list A) (n : nat) (x : A) :
  nth_error l n = Some x -> skipn n l = x :: skipn (S n) l.
Proof.
  revert l; induction n as [|n IH]; intros [|a l] H; simpl in *;
    try discriminate.
  - now inversion H.
  - now apply IH.
Qed.

Lemma scan_string_unterminated (q : ascii) (r : list ascii) :
  unterminated q r -> scan_string q r = length r.
Proof.
  induction 1 as [|Hq|c r Hq _ IH|c r Hc Hb _ IH]; cbn [scan_string length].
  - reflexivity.
  - apply Ascii.eqb_neq in Hq. now rewrite Hq, Ascii.eqb_refl.
  - apply Ascii.eqb_neq in Hq. now rewrite Hq, Ascii.eqb_refl, IH.
  - apply Ascii.eqb_neq in Hc, Hb. now rewrite Hc, Hb, IH.
Qed.

Lemma classify_quote (q : ascii) (rest : list ascii) :
  q = dquote \/ q = squote -> classify q rest = RString.
Proof. intros [-> | ->]; reflexivity. Qed.

(** The string rule, from a quote met at the cursor. *)
Lemma tokenize_body_string (input : list ascii) (st : Scan) (q : ascii)
      (rest : list ascii) :
  skipn (cur st) input = q :: rest ->
  q = dquote \/ q = squote ->
  let after_loop := cur st + 1 + scan_string q rest in
  let after_quote :=
    if after_loop <? length input then after_loop + 1 else after_loop in
  tokenize_body input st =
  add_token (set_cur st after_quote) STRING (cur st) after_quote.
Proof.
  intros E Hq. unfold tokenize_body.
  rewrite E, (classify_quote q rest Hq). reflexivity.
Qed.

(** C5: when the scanner meets an opening quote and the rest of the source
    holds no closing quote for it, scanning still ends normally, and the
    last token of the stream is one STRING token that spans from that
    quote to the end of the input; the tokens before it are those emitted
    before the quote was met. *)
Theorem unterminated_string_runs_to_end
        (input : list ascii) (n : nat) (q : ascii) :
  let st := tokenize_loop input n tokenize_init in
  nth_error input (cur st) = Some q ->
  q = dquote \/ q = squote ->
  unterminated q (skipn (S (cur st)) input) ->
  cur (tokenize input) = length input /\
  tokens_ (tokenize input) =
    tokens_ st ++
    [mkToken STRING (mkStringRef (cur st) (length input))
             (cur_line st) (cur_col st)].
Proof.
  intros st Hnth Hq Hun.
  split; [apply tokenize_ends_at_end|].
  pose proof (skipn_nth_error _ _ _ Hnth) as E.
  assert (Hlt : cur st < length input).
  { apply nth_error_Some. rewrite Hnth. discriminate. }
  pose proof (length_skipn (S (cur st)) input) as L.
  pose proof (tokenize_body_string input st q _ E Hq) as B.
  rewrite (scan_string_unterminated _ _ Hun), L in B.
  simpl in B.
  replace (cur st + 1 + (length input - S (cur st))) with (length input)
    in B by lia.
  rewrite Nat.ltb_irrefl in B.
  unfold tokenize.
  rewrite (proj1 (proj2 (tokenize_finish_same input _))).
  rewrite (tokenize_loop_from input n). fold st.
  destruct (length input) as [|len] eqn:Hlen; [lia|].
  simpl. rewrite Hlen.
  assert (K : (cur st <? S len) = true) by (apply Nat.ltb_lt; lia).
  rewrite K, B, tokenize_loop_done by (rewrite Hlen; simpl; lia).
  reflexivity.
Qed.

(** The source x = 'a\'b : the quote opened at offset 4 is never closed,
    the one after the backslash being escaped. *)
Lemma unterminated_string_runs_to_end_witness :
  cur (tokenize (src "x = 'a\'b")) = 9 /\
  tokens_ (tokenize (src "x = 'a\'b")) =
    [mkToken LITERAL (mkStringRef 0 1) 0 0;
     mkToken OPERATOR (mkStringRef 2 3) 0 2;
     mkToken STRING (mkStringRef 4 9) 0 4].
Proof.
  apply (unterminated_string_runs_to_end (src "x = 'a\'b") 4 squote).
  - reflexivity.
  - right. reflexivity.
  - simpl.
    apply unterminated_plain; [discriminate|discriminate|].
    apply unterminated_escape; [discriminate|].
    apply unterminated_plain; [discriminate|discriminate|].
    apply unterminated_end.
Defined.

(** C9: inside a string a backslash makes the scanner step over the
    character after it, whatever it is, and go on from the one after that;
    so the source of the six characters quote, a, backslash, quote, b,
    quote gives exactly one STRING token, which spans all six. *)
Theorem escaped_quote_stays_in_string :
  (forall (c : ascii) (r : list ascii),
      scan_string dquote (backslash :: c :: r) = 2 + scan_string dquote r /\
      scan_string squote (backslash :: c :: r) = 2 + scan_string squote r) /\
  tokens_ (tokenize [dquote; "a"; backslash; dquote; "b"; dquote]) =
    [mkToken STRING (mkStringRef 0 6) 0 0] /\
  map (fun t => str [dquote; "a"; backslash; dquote; "b"; dquote] (value t))
      (tokens_ (tokenize [dquote; "a"; backslash; dquote; "b"; dquote])) =
    [[dquote; "a"; backslash; dquote; "b"; dquote]].
Proof.
  split; [|split; reflexivity].
  intros c r. split; reflexivity.
Qed.

(** ** The number rule *)

Lemma scan_number_text (d : bool) (l : list ascii) :
  Forall (fun c => isdigit c = true \/ c = ".")
         (firstn (scan_number d l) l) /\
  dots (firstn (scan_number d l) l) + (if d then 1 else 0) <= 1.
Proof.
  revert d; induction l as [|c r IH]; intros d; simpl.
  - split; [constructor|unfold dots; simpl; destruct d; lia].
  - destruct (isdigit c) eqn:D; simpl.
    + destruct (c =? ".")%char eqn:E.
      * apply Ascii.eqb_eq in E. subst c. discriminate D.
      * destruct (IH d) as [F N].
        split; [constructor; auto|].
        apply Ascii.eqb_neq in E.
        unfold dots in *. now rewrite count_occ_cons_neq.
    + destruct d; simpl.
      * split; [constructor|unfold dots; simpl; lia].
      * destruct (c =? ".")%char eqn:E; simpl.
        -- apply Ascii.eqb_eq in E. subst c.
           destruct (IH true) as [F N].
           split; [constructor; auto|].
           unfold dots in *. rewrite count_occ_cons_eq by reflexivity. lia.
        -- split; [constructor|unfold dots; simpl; lia].
Qed.

(** The number loop stops only at the end, or at a character that is no
    digit and is a ['.'] only when one was taken already. *)
Lemma scan_number_stops (d : bool) (l : list ascii) :
  match skipn (scan_number d l) l with
  | [] => True
  | c :: _ =>
      isdigit c = false /\
      (c = "." -> d = true \/ 1 <= dots (firstn (scan_number d l) l))
  end.
Proof.
  revert d; induction l as [|c r IH]; intros d; simpl.
  - exact I.
  - destruct (isdigit c) eqn:D; simpl.
    + specialize (IH (if (c =? ".")%char then true else d)).
      destruct (skipn _ r) as [|c' r'] eqn:E; [exact I|].
      destruct IH as [D' H]. split; [assumption|].
      intros Hc'. specialize (H Hc').
      destruct (c =? ".")%char eqn:Ec.
      * apply Ascii.eqb_eq in Ec. subst c. discriminate D.
      * destruct H as [H|H]; [now left|right].
        apply Ascii.eqb_neq in Ec.
        unfold dots in *. now rewrite count_occ_cons_neq.
    + destruct d; simpl.
      * split; [assumption|]. intros _. now left.
      * destruct (c =? ".")%char eqn:Ec; simpl.
        -- specialize (IH true).
           destruct (skipn _ r) as [|c' r'] eqn:E; [exact I|].
           destruct IH as [D' H]. split; [assumption|].
           intros _. right.
           apply Ascii.eqb_eq in Ec. subst c.
           unfold dots. rewrite count_occ_cons_eq by reflexivity. lia.
        -- split; [assumption|].
           intros ->. discriminate Ec.
Qed.

(** C2, as the code has it: the number rule takes digits and at most one
    ['.'], and stops at a second ['.']; tokenizing 1.5.6 gives exactly two
    tokens, NUMBER 1.5 and then NUMBER .6, because the ['.'] the first
    number stopped at is followed by a digit and starts a number itself. *)
Theorem tokenize_1_5_6 :
  (forall l : list ascii,
      number_text (firstn (scan_number false l) l) /\
      match skipn (scan_number false l) l with
      | [] => True
      | c :: _ =>
          isdigit c = false /\
          (c = "." -> 1 <= dots (firstn (scan_number false l) l))
      end) /\
  classify "." [ "6" ] = RNumber /\
  scan_view (src "1.5.6") = [(NUMBER, "1.5"%string); (NUMBER, ".6"%string)].
Proof.
  split; [|split; reflexivity].
  intros l. split.
  - destruct (scan_number_text false l) as [F N].
    split; [assumption|lia].
  - pose proof (scan_number_stops false l) as S.
    destruct (skipn _ l); [exact I|].
    destruct S as [D H]. split; [assumption|].
    intros Hc. destruct (H Hc) as [K|K]; [discriminate|assumption].
Qed.

(** C2 as the specification words it does not hold: the tokens of 1.5.6
    are not NUMBER 1.5, OPERATOR ., NUMBER 6. *)
Lemma tokenize_1_5_6_not_three_tokens :
  scan_view (src "1.5.6") <>
  [(NUMBER, "1.5"%string); (OPERATOR, "."%string); (NUMBER, "6"%string)].
Proof. vm_compute. discriminate. Qed.

(** ** The operator rule *)

Lemma scan_operator_two_char (c : ascii) (rest : list ascii) :
  scan_operator c rest = if two_char_operator c rest then 2 else 1.
Proof.
  unfold scan_operator, two_char_operator, operator_first.
  destruct rest as [|c2 r]; [reflexivity|].
  cbn [existsb src list_ascii_of_string].
  destruct (c =? "&")%char eqn:A; destruct (c =? "|")%char eqn:B;
    destruct (c2 =? "=")%char; destruct (c2 =? "&")%char;
    destruct (c2 =? "|")%char;
    destruct (c =? "=")%char; destruct (c =? "!")%char;
    destruct (c =? "<")%char; destruct (c =? ">")%char;
    destruct (c =? "+")%char; destruct (c =? "-")%char; reflexivity.
Qed.

Lemma tokenize_body_operator (input : list ascii) (st : Scan) (c : ascii)
      (rest : list ascii) :
  skipn (cur st) input = c :: rest ->
  classify c rest = ROperator ->
  tokenize_body input st =
  add_token (set_cur st (cur st + scan_operator c rest)) OPERATOR
            (cur st) (cur st + scan_operator c rest).
Proof.
  intros E R. unfold tokenize_body. now rewrite E, R.
Qed.

Lemma operator_tokens_short (input : list ascii) :
  Forall (fun t => type t = OPERATOR -> 1 <= length_ (value t) <= 2)
         (tokens_ (tokenize input)).
Proof.
  unfold tokenize.
  rewrite (proj1 (proj2 (tokenize_finish_same input _))).
  apply (tokenize_loop_invariant input
           (fun st => Forall (fun t => type t = OPERATOR ->
                                       1 <= length_ (value t) <= 2)
                             (tokens_ st))).
  - intros st HP Hlt.
    destruct (skipn_at input (cur st) Hlt) as (c & rest & E & _).
    destruct (classify c rest) eqn:R.
    7: { rewrite (tokenize_body_operator input st c rest E R). simpl.
         apply Forall_app. split; [assumption|].
         constructor; [|constructor].
         intros _. unfold length_; simpl.
         pose proof (scan_operator_bounds c rest). lia. }
    all: rewrite (proj2 (tokenize_body_turn input st c rest E)), R;
      apply Forall_app; split; [assumption|];
      unfold emitted_by; simpl;
      try (constructor; [simpl; discriminate|]); constructor.
  - constructor.
Qed.

(** C3, as the code has it: at a position the operator rule handles, the
    scanner emits one OPERATOR token that starts there and is two
    characters long when [two_char_operator] holds (one of = ! < > & | + -
    followed by =, or the pair &&, or the pair ||) and one character long
    otherwise; every OPERATOR token of every source is one or two
    characters long; the source |= is the single OPERATOR token |=, and
    brackets, commas and semicolons are one-character OPERATOR tokens. *)
Theorem operator_rule_length :
  (forall (input : list ascii) (st : Scan) (c : ascii) (rest : list ascii),
      skipn (cur st) input = c :: rest ->
      classify c rest = ROperator ->
      let n := if two_char_operator c rest then 2 else 1 in
      cur (tokenize_body input st) = cur st + n /\
      tokens_ (tokenize_body input st) =
        tokens_ st ++
        [mkToken OPERATOR (mkStringRef (cur st) (cur st + n))
                 (cur_line st) (cur_col st)]) /\
  (forall input : list ascii,
      Forall (fun t => type t = OPERATOR -> 1 <= length_ (value t) <= 2)
             (tokens_ (tokenize input))) /\
  scan_view (src "|=") = [(OPERATOR, "|="%string)] /\
  scan_view (src "(,;)") =
    [(OPERATOR, "("%string); (OPERATOR, ","%string);
     (OPERATOR, ";"%string); (OPERATOR, ")"%string)] /\
  scan_view (src "== = && & || |") =
    [(OPERATOR, "=="%string); (OPERATOR, "="%string);
     (OPERATOR, "&&"%string); (OPERATOR, "&"%string);
     (OPERATOR, "||"%string); (OPERATOR, "|"%string)].
Proof.
  split; [|split; [exact operator_tokens_short|repeat split]].
  intros input st c rest E R n.
  rewrite (tokenize_body_operator input st c rest E R).
  rewrite scan_operator_two_char. fold n. split; reflexivity.
Qed.

(** C3 as the specification words it does not hold: the tokens of |= are
    not the two one-character operators. *)
Lemma tokenize_bar_equals_not_two_tokens :
  scan_view (src "|=") <> [(OPERATOR, "|"%string); (OPERATOR, "="%string)].
Proof. vm_compute. discriminate. Qed.

(** The operator rule at the first character of |=. *)
Lemma operator_rule_length_witness :
  cur (tokenize_body (src "|=") tokenize_init) = 2 /\
  tokens_ (tokenize_body (src "|=") tokenize_init) =
    [mkToken OPERATOR (mkStringRef 0 2) 0 0].
Proof.
  exact (proj1 operator_rule_length (src "|=") tokenize_init "|" ["="]
               eq_refl eq_refl).
Defined.

(** ** The cursor *)

Lemma wrap64_small (z : Z) : (0 <= z < 2 ^ 64)%Z -> wrap64 z = z.
Proof. intros H. unfold wrap64. now apply Z.mod_small. Qed.

Lemma wrap64_le (z : Z) : (0 <= z)%Z -> (0 <= wrap64 z <= z)%Z.
Proof.
  intros H. unfold wrap64. split.
  - apply Z.mod_pos_bound. lia.
  - apply Z.mod_le; lia.
Qed.

Lemma only_cursor_moved_refl (s : TokenStream) : only_cursor_moved s s.
Proof. repeat split. Qed.

Lemma only_cursor_moved_trans (s1 s2 s3 : TokenStream) :
  only_cursor_moved s1 s2 -> only_cursor_moved s2 s3 ->
  only_cursor_moved s1 s3.
Proof.
  intros (A & B & C & D) (A' & B' & C' & D').
  repeat split; congruence.
Qed.

Lemma only_cursor_moved_size (s s' : TokenStream) :
  only_cursor_moved s s' -> size s' = size s.
Proof. intros (A & _). unfold size. now rewrite A. Qed.

Lemma set_pos_only_cursor (s : TokenStream) (p : Z) :
  only_cursor_moved s (set_pos s p).
Proof. repeat split. Qed.

Lemma pos_incr_inv (s : TokenStream) :
  cursor_inv s -> (pos s < size s)%Z ->
  cursor_inv (pos_incr s) /\ only_cursor_moved s (pos_incr s) /\
  ((size s < 2 ^ 64)%Z -> pos (pos_incr s) = (pos s + 1)%Z).
Proof.
  intros [H0 H1] Hlt.
  pose proof (wrap64_le (pos s + 1)) as W.
  split; [|split].
  - unfold cursor_inv, pos_incr, size in *. simpl. lia.
  - apply set_pos_only_cursor.
  - intros Hs. unfold pos_incr. simpl. apply wrap64_small. lia.
Qed.

Lemma pos_decr_inv (s : TokenStream) :
  cursor_inv s -> (0 < pos s)%Z ->
  cursor_inv (pos_decr s) /\ only_cursor_moved s (pos_decr s).
Proof.
  intros [H0 H1] Hlt.
  pose proof (wrap64_le (pos s - 1)) as W.
  split.
  - unfold cursor_inv, pos_decr, size in *. simpl. lia.
  - apply set_pos_only_cursor.
Qed.

(** ** The member functions keep the invariant *)

Lemma cursor_safe_ret {A} (a : A) : cursor_safe (ret a).
Proof.
  intros s H. simpl. split; [assumption|apply only_cursor_moved_refl].
Qed.

Lemma cursor_safe_bind {A B} (m : M A) (k : A -> M B) :
  cursor_safe m -> (forall a, cursor_safe (k a)) -> cursor_safe (bind m k).
Proof.
  intros Hm Hk s H. unfold bind.
  specialize (Hm s H). destruct (m s) as [a s1| |]; try assumption.
  destruct Hm as [I1 F1].
  specialize (Hk a s1 I1). destruct (k a s1) as [b s2| |]; try assumption.
  - destruct Hk as [I2 F2]. split; [assumption|].
    eapply only_cursor_moved_trans; eassumption.
  - now rewrite <- (only_cursor_moved_size _ _ F1).
Qed.

Lemma cursor_safe_assert (e : M bool) (msg : string) :
  cursor_safe e -> cursor_safe (assert_ e msg).
Proof.
  intros He s H. unfold assert_.
  specialize (He s H). destruct (e s) as [[|] s1| |]; auto.
Qed.

Lemma cursor_safe_discard {A} (m : M A) :
  cursor_safe m -> cursor_safe (discard m).
Proof.
  intros Hm. apply cursor_safe_bind; [assumption|].
  intros a. apply cursor_safe_ret.
Qed.

Lemma cursor_safe_peek : cursor_safe peek.
Proof.
  intros s H. unfold peek. destruct (pos s <? size s)%Z; [|exact I].
  split; [assumption|apply only_cursor_moved_refl].
Qed.

Lemma cursor_safe_next : cursor_safe next.
Proof.
  intros s H. unfold next. destruct (pos s <? size s)%Z eqn:K; [|exact I].
  apply Z.ltb_lt in K. destruct (pos_incr_inv s H K) as (A & B & _).
  now split.
Qed.

Lemma cursor_safe_consume (str_ : list ascii) : cursor_safe (consume str_).
Proof.
  intros s H. unfold consume.
  destruct (pos s <? size s)%Z eqn:K; simpl.
  - destruct (StringRef_eq _ _ _).
    + apply Z.ltb_lt in K. destruct (pos_incr_inv s H K) as (A & B & _).
      now split.
    + split; [assumption|apply only_cursor_moved_refl].
  - split; [assumption|apply only_cursor_moved_refl].
Qed.

Lemma cursor_safe_has_more_tokens : cursor_safe has_more_tokens.
Proof.
  intros s H. simpl. split; [assumption|apply only_cursor_moved_refl].
Qed.

Lemma cursor_safe_eof : cursor_safe eof.
Proof.
  intros s H. simpl. split; [assumption|apply only_cursor_moved_refl].
Qed.

Lemma cursor_safe_move_back : cursor_safe move_back.
Proof.
  intros s H. unfold move_back. destruct (pos s >? 0)%Z eqn:K; [|exact I].
  apply Z.gtb_lt in K. now apply pos_decr_inv.
Qed.

Lemma cursor_safe_move_forward : cursor_safe move_forward.
Proof.
  intros s H. unfold move_forward.
  destruct (pos s <? size s)%Z eqn:K; [|exact I].
  apply Z.ltb_lt in K. destruct (pos_incr_inv s H K) as (A & B & _).
  now split.
Qed.

Lemma cursor_safe_get_line (n : Z) : cursor_safe (get_line n).
Proof.
  intros s H. unfold get_line.
  destruct (_ && _); [|exact I].
  split; [assumption|apply only_cursor_moved_refl].
Qed.

Lemma cursor_safe_print_error_at_current (message : list ascii) :
  cursor_safe (print_error_at_current message).
Proof.
  intros s H. unfold print_error_at_current.
  destruct (pos s <? size s)%Z.
  - apply (cursor_safe_bind (get_line _)).
    + apply cursor_safe_get_line.
    + intros a. apply cursor_safe_ret.
    + assumption.
  - split; [assumption|apply only_cursor_moved_refl].
Qed.

Lemma consume_cases (str_ : list ascii) (s : TokenStream) :
  (cursor_on s str_ /\ consume str_ s = Ok true (pos_incr s)) \/
  (~ cursor_on s str_ /\ consume str_ s = Ok false s).
Proof.
  unfold consume, cursor_on.
  destruct (pos s <? size s)%Z eqn:K; simpl.
  - apply Z.ltb_lt in K. destruct (StringRef_eq _ _ _).
    + left. auto.
    + right. split; [|reflexivity]. intros [_ H]. discriminate.
  - apply Z.ltb_ge in K. right. split; [|reflexivity]. intros [H _]. lia.
Qed.

(** What is left of the fuel when a loop has moved the cursor forward. *)
Lemma fuel_after_incr (fuel : nat) (s : TokenStream) :
  cursor_inv s -> (pos s < size s)%Z ->
  (2 ^ 64 <= size (pos_incr s) \/
   Z.of_nat fuel <= size (pos_incr s) - pos (pos_incr s))%Z ->
  (2 ^ 64 <= size s \/ Z.of_nat (S fuel) <= size s - pos s)%Z.
Proof.
  intros H K [L|L].
  - left. exact L.
  - destruct (Z_lt_le_dec (size s) (2 ^ 64)) as [Hs|Hs]; [|now left].
    right. destruct (pos_incr_inv s H K) as (_ & _ & P).
    rewrite (P Hs) in L. change (size (pos_incr s)) with (size s) in L. lia.
Qed.

Lemma get_list_until_loop_spec
      (fuel : nat) (end_tokens : list (list ascii)) (consume_ : bool)
      (result : list Token) (s : TokenStream) :
  cursor_inv s ->
  match get_list_until_loop fuel end_tokens consume_ result s with
  | Ok _ s' => cursor_inv s' /\ only_cursor_moved s s'
  | AssertFail _ => False
  | OutOfFuel => (2 ^ 64 <= size s \/ Z.of_nat fuel <= size s - pos s)%Z
  end.
Proof.
  revert result s; induction fuel as [|fuel IH]; intros result s H.
  - simpl. right. unfold cursor_inv in H. lia.
  - cbn [get_list_until_loop].
    destruct (pos s <? size s)%Z eqn:K.
    + pose proof K as K'. apply Z.ltb_lt in K'.
      destruct (pos_incr_inv s H K') as (I1 & F1 & _).
      destruct (is_end_token _ _ _).
      * destruct consume_.
        -- now split.
        -- split; [assumption|apply only_cursor_moved_refl].
      * unfold bind, next. rewrite K.
        specialize (IH (result ++ [token_at s (pos s)]) (pos_incr s) I1).
        destruct (get_list_until_loop _ _ _ _ _) as [r s2| |].
        -- destruct IH as [I2 F2]. split; [assumption|].
           eapply only_cursor_moved_trans; eassumption.
        -- assumption.
        -- now apply fuel_after_incr.
    + split; [assumption|apply only_cursor_moved_refl].
Qed.

Lemma cursor_safe_get_list_until (end_tokens : list (list ascii))
      (consume_ : bool) :
  cursor_safe (get_list_until end_tokens consume_).
Proof.
  intros s H. unfold get_list_until.
  pose proof (get_list_until_loop_spec (S (length (tokens s))) end_tokens
                                       consume_ [] s H) as L.
  destruct (get_list_until_loop _ _ _ _ _); try assumption.
  - exact I.
  - destruct L as [L|L]; [assumption|].
    unfold cursor_inv, size in *. lia.
Qed.

Lemma cursor_safe_unwrap_parentheses : cursor_safe unwrap_parentheses.
Proof.
  unfold unwrap_parentheses.
  apply cursor_safe_bind;
    [apply cursor_safe_assert, cursor_safe_consume|intros _].
  apply cursor_safe_bind; [apply cursor_safe_get_list_until|intros result].
  apply cursor_safe_bind;
    [apply cursor_safe_assert, cursor_safe_consume|intros _].
  apply cursor_safe_ret.
Qed.

Lemma token_groups_loop_spec
      (fuel : nat) (end_s separator : list ascii)
      (groups : list (list Token)) (current_group : list Token)
      (s : TokenStream) :
  cursor_inv s ->
  match token_groups_loop fuel end_s separator groups current_group s with
  | Ok _ s' => cursor_inv s' /\ only_cursor_moved s s'
  | AssertFail _ => False
  | OutOfFuel => (2 ^ 64 <= size s \/ Z.of_nat fuel <= size s - pos s)%Z
  end.
Proof.
  revert groups current_group s;
    induction fuel as [|fuel IH]; intros groups current_group s H.
  - simpl. right. unfold cursor_inv in H. lia.
  - cbn [token_groups_loop].
    destruct (pos s <? size s)%Z eqn:K.
    + pose proof K as K'. apply Z.ltb_lt in K'.
      destruct (pos_incr_inv s H K') as (I1 & F1 & _).
      assert (Step : forall g c,
                 match token_groups_loop fuel end_s separator g c
                                         (pos_incr s) with
                 | Ok _ s' => cursor_inv s' /\ only_cursor_moved s s'
                 | AssertFail _ => False
                 | OutOfFuel =>
                     (2 ^ 64 <= size s \/
                      Z.of_nat (S fuel) <= size s - pos s)%Z
                 end).
      { intros g c. specialize (IH g c (pos_incr s) I1).
        destruct (token_groups_loop _ _ _ _ _ _) as [r s2| |].
        - destruct IH as [I2 F2]. split; [assumption|].
          eapply only_cursor_moved_trans; eassumption.
        - assumption.
        - now apply fuel_after_incr. }
      unfold bind at 1.
      destruct (consume_cases end_s s) as [[_ E]|[_ E]]; rewrite E.
      * simpl. now split.
      * unfold bind at 1.
        destruct (consume_cases separator s) as [[_ E2]|[_ E2]]; rewrite E2.
        -- destruct (negb (is_empty current_group)); apply Step.
        -- unfold bind, next. rewrite K. apply Step.
    + split; [assumption|apply only_cursor_moved_refl].
Qed.

Lemma token_groups_loop_nonempty
      (fuel : nat) (end_s separator : list ascii)
      (groups : list (list Token)) (current_group : list Token)
      (s : TokenStream) :
  Forall (fun g => g <> []) groups ->
  match token_groups_loop fuel end_s separator groups current_group s with
  | Ok (groups', _) _ => Forall (fun g => g <> []) groups'
  | _ => True
  end.
Proof.
  revert groups current_group s;
    induction fuel as [|fuel IH]; intros groups current_group s H.
  - exact I.
  - cbn [token_groups_loop].
    destruct (pos s <? size s)%Z eqn:K; [|assumption].
    unfold bind at 1.
    destruct (consume_cases end_s s) as [[_ E]|[_ E]]; rewrite E.
    + simpl. assumption.
    + unfold bind at 1.
      destruct (consume_cases separator s) as [[_ E2]|[_ E2]]; rewrite E2.
      * destruct current_group as [|t l]; simpl.
        -- now apply IH.
        -- apply IH. apply Forall_app. split; [assumption|].
           constructor; [discriminate|constructor].
      * unfold bind, next. rewrite K. now apply IH.
Qed.

Lemma cursor_safe_get_token_groups_in_between
      (start_s end_s separator : list ascii) :
  cursor_safe (get_token_groups_in_between start_s end_s separator).
Proof.
  unfold get_token_groups_in_between.
  apply cursor_safe_bind;
    [apply cursor_safe_assert, cursor_safe_consume|intros _].
  intros s H. unfold bind at 1.
  pose proof (token_groups_loop_spec (S (length (tokens s))) end_s separator
                                     [] [] s H) as L.
  destruct (token_groups_loop _ _ _ _ _ _) as [[g c] s1| |].
  - destruct (negb (is_empty c)); exact L.
  - exact I.
  - destruct L as [L|L]; [assumption|].
    unfold cursor_inv, size in *. lia.
Qed.

Lemma cursor_safe_exec (o : Op) : cursor_safe (exec o).
Proof.
  destruct o; simpl;
    try apply cursor_safe_discard;
    auto using cursor_safe_peek, cursor_safe_next, cursor_safe_consume,
      cursor_safe_get_list_until, cursor_safe_unwrap_parentheses,
      cursor_safe_get_token_groups_in_between, cursor_safe_has_more_tokens,
      cursor_safe_eof, cursor_safe_move_back, cursor_safe_move_forward,
      cursor_safe_get_line, cursor_safe_print_error_at_current.
Qed.

(** C7: the stream the constructor builds satisfies
    [0 <= cursor <= len(tokens)]; every call of a member function that
    returns, made on a stream that satisfies the invariant, leaves a stream
    that satisfies it, with the same tokens (and the same buffer and line
    table); no call loops for ever on a vector a [size_t] can index; and
    under the invariant [eof] answers true, and [has_more_tokens] false,
    exactly when the cursor equals the number of tokens. *)
Theorem cursor_invariant :
  (forall input : list ascii, cursor_inv (new_TokenStream input)) /\
  (forall (o : Op) (s s' : TokenStream),
      cursor_inv s -> exec o s = Ok tt s' ->
      cursor_inv s' /\ tokens s' = tokens s /\ only_cursor_moved s s') /\
  (forall (o : Op) (s : TokenStream),
      cursor_inv s -> (size s < 2 ^ 64)%Z -> exec o s <> OutOfFuel) /\
  (forall s : TokenStream,
      cursor_inv s ->
      (eof s = Ok true s <-> pos s = size s) /\
      (has_more_tokens s = Ok false s <-> pos s = size s)).
Proof.
  split; [|split; [|split]].
  - intros input. unfold cursor_inv, size. simpl. lia.
  - intros o s s' H E.
    pose proof (cursor_safe_exec o s H) as S. rewrite E in S.
    destruct S as [I F]. split; [assumption|split; [apply F|assumption]].
  - intros o s H Hs E.
    pose proof (cursor_safe_exec o s H) as S. rewrite E in S. lia.
  - intros s [H0 H1]. unfold eof, has_more_tokens. split; split.
    + intros E. inversion E as [G]. apply Z.geb_le in G. lia.
    + intros E. rewrite E.
      replace (size s >=? size s)%Z with true; [reflexivity|].
      symmetry. apply Z.geb_le. lia.
    + intros E. inversion E as [G]. apply Z.ltb_ge in G. lia.
    + intros E. rewrite E. now rewrite Z.ltb_irrefl.
Qed.

(** [next] on the stream of the source "a b". *)
Lemma cursor_invariant_witness :
  cursor_inv (pos_incr (new_TokenStream (src "a b"))) /\
  tokens (pos_incr (new_TokenStream (src "a b"))) =
  tokens (new_TokenStream (src "a b")).
Proof.
  destruct (proj1 (proj2 cursor_invariant) OpNext
                  (new_TokenStream (src "a b"))
                  (pos_incr (new_TokenStream (src "a b")))
                  (proj1 cursor_invariant (src "a b")) eq_refl)
    as (A & B & _).
  split; assumption.
Defined.

(** C8: on a stream whose cursor is on a token, [next] returns that token,
    [move_back] after it gives the stream back as it was, cursor included,
    and [peek] then returns the token [next] returned. *)
Theorem next_move_back_peek (s : TokenStream) :
  (0 <= pos s < size s)%Z -> (size s < 2 ^ 64)%Z ->
  exists (t : Token) (s1 s2 : TokenStream),
    next s = Ok t s1 /\
    move_back s1 = Ok tt s2 /\
    pos s2 = pos s /\ s2 = s /\
    peek s2 = Ok t s2.
Proof.
  intros [H0 H1] Hs.
  exists (token_at s (pos s)), (pos_incr s), s.
  assert (K : (pos s <? size s)%Z = true) by now apply Z.ltb_lt.
  assert (P : pos (pos_incr s) = (pos s + 1)%Z).
  { unfold pos_incr. simpl. apply wrap64_small. lia. }
  unfold next, peek, move_back. rewrite K, P.
  split; [reflexivity|]. split; [|auto].
  replace (pos s + 1 >? 0)%Z with true by (symmetry; apply Z.gtb_lt; lia).
  f_equal. unfold pos_decr. rewrite P.
  replace (pos s + 1 - 1)%Z with (pos s) by lia.
  rewrite wrap64_small by lia.
  destruct s; reflexivity.
Qed.

(** [next], [move_back], [peek] at the start of the stream of "a b". *)
Lemma next_move_back_peek_witness :
  exists (t : Token) (s1 s2 : TokenStream),
    next (new_TokenStream (src "a b")) = Ok t s1 /\
    move_back s1 = Ok tt s2 /\
    pos s2 = pos (new_TokenStream (src "a b")) /\
    s2 = new_TokenStream (src "a b") /\
    peek s2 = Ok t s2.
Proof.
  apply (next_move_back_peek (new_TokenStream (src "a b"))).
  - vm_compute. split; [discriminate|reflexivity].
  - reflexivity.
Defined.

(** ** Groups of tokens *)

Lemma get_token_groups_in_between_returns
      (start_s end_s separator : list ascii) (s : TokenStream) :
  cursor_inv s -> (size s < 2 ^ 64)%Z -> cursor_on s start_s ->
  exists groups s',
    get_token_groups_in_between start_s end_s separator s = Ok groups s'.
Proof.
  intros H Hs On.
  unfold get_token_groups_in_between, bind at 1, assert_.
  destruct (consume_cases start_s s) as [[_ E]|[N _]]; [|contradiction].
  rewrite E. unfold bind at 1.
  destruct On as [K _].
  destruct (pos_incr_inv s H K) as (I1 & F1 & _).
  pose proof (token_groups_loop_spec (S (length (tokens (pos_incr s))))
                                     end_s separator [] [] (pos_incr s) I1)
    as L.
  destruct (token_groups_loop _ _ _ _ _ _) as [[g c] s1| |].
  - destruct (negb (is_empty c)); simpl; eauto.
  - contradiction.
  - exfalso. change (size (pos_incr s)) with (size s) in L.
    change (tokens (pos_incr s)) with (tokens s) in L.
    unfold cursor_inv, size in *. lia.
Qed.

Lemma get_token_groups_in_between_nonempty
      (start_s end_s separator : list ascii) (s s' : TokenStream)
      (groups : list (list Token)) :
  get_token_groups_in_between start_s end_s separator s = Ok groups s' ->
  Forall (fun g => g <> []) groups.
Proof.
  unfold get_token_groups_in_between, bind at 1, assert_.
  destruct (consume_cases start_s s) as [[_ E]|[_ E]]; rewrite E;
    [|discriminate].
  unfold bind at 1.
  pose proof (token_groups_loop_nonempty
                (S (length (tokens (pos_incr s)))) end_s separator [] []
                (pos_incr s) (Forall_nil _)) as L.
  destruct (token_groups_loop _ _ _ _ _ _) as [[g c] s1| |];
    try discriminate.
  destruct c as [|t l]; simpl; intros R; inversion R; subst.
  - assumption.
  - apply Forall_app. split; [assumption|].
    constructor; [discriminate|constructor].
Qed.

(** C6: on the stream of the source "(a, b, )" the call
    [get_token_groups_in_between("(", ")", ",")] returns the two groups
    [a] and [b] and leaves the cursor after the [")"]; whatever the stream
    and the three texts, the groups of a call that returns are all
    non-empty; and on a stream that satisfies the invariant, with the
    cursor on the start text, the call does return. *)
Theorem token_groups_never_empty :
  get_token_groups_in_between (src "(") (src ")") (src ",")
                              (new_TokenStream (src "(a, b, )")) =
    Ok [[mkToken LITERAL (mkStringRef 1 2) 0 1];
        [mkToken LITERAL (mkStringRef 4 5) 0 4]]
       (set_pos (new_TokenStream (src "(a, b, )")) 6) /\
  size (new_TokenStream (src "(a, b, )")) = 6%Z /\
  (forall (start_s end_s separator : list ascii) (s s' : TokenStream)
          (groups : list (list Token)),
      get_token_groups_in_between start_s end_s separator s = Ok groups s' ->
      Forall (fun g => g <> []) groups) /\
  (forall (start_s end_s separator : list ascii) (s : TokenStream),
      cursor_inv s -> (size s < 2 ^ 64)%Z -> cursor_on s start_s ->
      exists groups s',
        get_token_groups_in_between start_s end_s separator s =
        Ok groups s').
Proof.
  split; [vm_compute; reflexivity|].
  split; [reflexivity|].
  split.
  - exact get_token_groups_in_between_nonempty.
  - exact get_token_groups_in_between_returns.
Qed.

(** The groups of "(,,a b,,c" , where separators lead, repeat and the end
    text is missing. *)
Lemma token_groups_never_empty_witness :
  Forall (fun g : list Token => g <> [])
         [[mkToken LITERAL (mkStringRef 3 4) 0 3;
           mkToken LITERAL (mkStringRef 5 6) 0 5];
          [mkToken LITERAL (mkStringRef 8 9) 0 8]].
Proof.
  apply (proj1 (proj2 (proj2 token_groups_never_empty))
               (src "(") (src ")") (src ",")
               (new_TokenStream (src "(,,a b,,c"))
               (set_pos (new_TokenStream (src "(,,a b,,c")) 8)).
  vm_compute. reflexivity.
Defined.

(** ** Parentheses *)

Lemma unwrap_parentheses_not_on_paren (s : TokenStream) :
  ~ cursor_on s (src "(") ->
  unwrap_parentheses s =
  AssertFail "Expected '(' at the beginning of parentheses".
Proof.
  intros N. unfold unwrap_parentheses, bind at 1, assert_.
  destruct (consume_cases (src "(") s) as [[On _]|[_ E]]; [contradiction|].
  now rewrite E.
Qed.

(** Without assertions the ["("] is not consumed and comes back as the
    first token of the result. *)
Lemma unwrap_parentheses_ndebug_a_b :
  unwrap_parentheses_ndebug (new_TokenStream (src "(a, b)")) =
    Ok [mkToken OPERATOR (mkStringRef 0 1) 0 0;
        mkToken LITERAL (mkStringRef 1 2) 0 1;
        mkToken OPERATOR (mkStringRef 2 3) 0 2;
        mkToken LITERAL (mkStringRef 4 5) 0 4]
       (set_pos (new_TokenStream (src "(a, b)")) 5).
Proof. vm_compute. reflexivity. Qed.

(** C1, on the code: on the stream of the source "(a, b)" the first two
    statements of [unwrap_parentheses] consume the ["("], collect the
    tokens [a], [","], [b] and leave the cursor after the [")"], at the end
    of the stream; the third statement then asks for one more [")"], finds
    none, and the call ends in a failed assertion instead of returning.
    With a second [")"] in the source the call returns, two [")"]
    consumed. *)
Theorem unwrap_parentheses_a_b :
  (assert_ (consume (src "("))
           "Expected '(' at the beginning of parentheses" ;;
   get_list_until [src ")"] true)%stream
    (new_TokenStream (src "(a, b)")) =
    Ok [mkToken LITERAL (mkStringRef 1 2) 0 1;
        mkToken OPERATOR (mkStringRef 2 3) 0 2;
        mkToken LITERAL (mkStringRef 4 5) 0 4]
       (set_pos (new_TokenStream (src "(a, b)")) 5) /\
  size (new_TokenStream (src "(a, b)")) = 5%Z /\
  unwrap_parentheses (new_TokenStream (src "(a, b)")) =
    AssertFail "Expected ')' at the end of parentheses" /\
  unwrap_parentheses (new_TokenStream (src "(a, b))")) =
    Ok [mkToken LITERAL (mkStringRef 1 2) 0 1;
        mkToken OPERATOR (mkStringRef 2 3) 0 2;
        mkToken LITERAL (mkStringRef 4 5) 0 4]
       (set_pos (new_TokenStream (src "(a, b))")) 6).
Proof.
  split; [vm_compute; reflexivity|].
  split; [vm_compute; reflexivity|].
  split; vm_compute; reflexivity.
Qed.

(** * Further properties of the scanner *)

(** ** More on lists and buffers *)

Lemma length_chars_between (l : list ascii) (b e : nat) :
  b <= e -> e <= length l -> length (chars_between l b e) = e - b.
Proof.
  intros Hbe He. unfold chars_between.
  rewrite length_firstn, length_skipn. lia.
Qed.

Lemma chars_between_from_0 (l : list ascii) (e : nat) :
  chars_between l 0 e = firstn e l.
Proof. unfold chars_between. now rewrite Nat.sub_0_r, skipn_0. Qed.

Lemma firstn_chars_between (l : list ascii) (b e : nat) :
  b <= e -> firstn b l ++ chars_between l b e = firstn e l.
Proof.
  intros H. rewrite <- !chars_between_from_0.
  symmetry. apply chars_between_app; lia.
Qed.

Lemma firstn_succ_skipn {A} (l : list A) (n : nat) (c : A) (rest : list A) :
  skipn n l = c :: rest -> firstn (S n) l = firstn n l ++ [c].
Proof.
  revert l; induction n as [|n IH]; intros l E; simpl in *.
  - now subst l.
  - destruct l as [|a l]; [discriminate|]. simpl. now rewrite (IH l E).
Qed.

Lemma skipn_plus_at {A} (l : list A) (n k : nat) :
  skipn (n + k) l = skipn k (skipn n l).
Proof. now rewrite skipn_skipn, Nat.add_comm. Qed.

Lemma chars_between_at (l : list ascii) (n k : nat) :
  chars_between l n (n + k) = firstn k (skipn n l).
Proof. unfold chars_between. now rewrite Nat.add_comm, Nat.add_sub. Qed.

Lemma join_lines_app (ls : list (list ascii)) (l : list ascii) :
  join_lines (ls ++ [l]) = join_lines ls ++ l ++ [newline].
Proof.
  unfold join_lines. rewrite map_app, concat_app. simpl.
  now rewrite app_nil_r.
Qed.

Lemma line_offsets_app (from : nat) (ls : list (list ascii))
      (l : list ascii) :
  line_offsets from (ls ++ [l]) =
  line_offsets from ls ++ [from + length (join_lines ls)].
Proof.
  revert from; induction ls as [|l0 ls IH]; intros from; simpl.
  - now rewrite Nat.add_0_r.
  - rewrite IH. unfold join_lines. simpl.
    rewrite !length_app. simpl. do 3 f_equal. lia.
Qed.

Lemma length_line_offsets (from : nat) (ls : list (list ascii)) :
  length (line_offsets from ls) = length ls.
Proof.
  revert from; induction ls as [|l ls IH]; intros from; simpl; auto.
Qed.

Lemma length_join_lines (ls : list (list ascii)) :
  length ls <= length (join_lines ls).
Proof.
  induction ls as [|l ls IH]; simpl; [lia|].
  unfold join_lines in *. simpl. rewrite !length_app. simpl. lia.
Qed.

Lemma skip_comment_stops (l : list ascii) :
  skipn (skip_comment l) l = [] \/
  exists r, skipn (skip_comment l) l = newline :: r.
Proof.
  induction l as [|c r IH]; simpl; [now left|].
  destruct (c =? newline)%char eqn:E; simpl; [|exact IH].
  apply Ascii.eqb_eq in E. subst c. right. eauto.
Qed.

(** ** The invariant of the scanner loop *)

Section ScanInvariant.

Variable input : list ascii.

Lemma scan_inv_init : scan_inv input tokenize_init.
Proof.
  constructor; simpl; auto.
  - lia.
Qed.

Lemma token_on_line_extend (ls ls' : list (list ascii)) (offs offs' : list nat)
      (t : Token) :
  token_on_line input ls offs t ->
  token_on_line input (ls ++ ls') (offs ++ offs') t.
Proof.
  intros (k & text & off & H1 & H2 & H3 & H).
  exists k, text, off. split; [assumption|].
  split.
  - rewrite nth_error_app1; [assumption|].
    apply nth_error_Some. rewrite H2. discriminate.
  - split; [|assumption].
    rewrite nth_error_app1; [assumption|].
    apply nth_error_Some. rewrite H3. discriminate.
Qed.

Lemma scan_inv_scan_len (st : Scan) :
  scan_inv input st -> length (lines_scan_ st) = length (lines_ st).
Proof. intros I. rewrite (inv_offsets _ _ I). apply length_line_offsets. Qed.

(** When the line being read is closed at [u], its tokens are on it. *)
Lemma token_pending_closed (st : Scan) (u : nat) (t : Token) :
  scan_inv input st -> cur st <= u -> u <= length input ->
  token_pending st t ->
  token_on_line input
                (lines_ st ++ [chars_between input (start st) u])
                (lines_scan_ st ++ [start st]) t.
Proof.
  intros I Hu Hl (P1 & P2 & P3 & P4 & P5).
  destruct (inv_bounds _ _ I) as [B1 B2].
  assert (L : length (chars_between input (start st) u) = u - start st)
    by (apply length_chars_between; lia).
  exists (length (lines_ st)), (chars_between input (start st) u), (start st).
  rewrite L.
  split; [assumption|]. split.
  { rewrite nth_error_app2, Nat.sub_diag by lia. reflexivity. }
  split.
  { rewrite nth_error_app2; rewrite (scan_inv_scan_len st I); [|lia].
    now rewrite Nat.sub_diag. }
  split; [assumption|]. split; [assumption|]. split; [lia|].
  split; [assumption|].
  unfold line_at. rewrite L.
  replace (start st + (u - start st)) with u by lia.
  split; [assumption|reflexivity].
Qed.

Lemma scan_inv_col_left (st : Scan) (c : ascii) (rest : list ascii) :
  scan_inv input st -> skipn (cur st) input = c :: rest -> c <> newline ->
  cur_col st = Z.of_nat (cur st - start st).
Proof.
  intros I E N. destruct (inv_col _ _ I) as [H|[H|[r H]]].
  - assumption.
  - rewrite H in E. discriminate.
  - rewrite H in E. inversion E. congruence.
Qed.

Lemma scan_inv_add_token (st : Scan) (ty : TokenType) (cur' : nat) :
  scan_inv input st -> cur st < cur' -> cur' <= length input ->
  cur_col st = Z.of_nat (cur st - start st) ->
  scan_inv input (add_token (set_cur st cur') ty (cur st) cur').
Proof.
  intros I H1 H2 C. destruct (inv_bounds _ _ I) as [B1 B2].
  constructor; simpl.
  - lia.
  - apply (inv_line _ _ I).
  - left. rewrite C. lia.
  - apply (inv_join _ _ I).
  - apply (inv_offsets _ _ I).
  - apply Forall_app. split.
    + eapply Forall_impl; [|apply (inv_tokens _ _ I)].
      intros t [H|(P1 & P2 & P3 & P4 & P5)]; [now left|right].
      unfold token_pending. simpl. repeat split; try assumption; lia.
    + constructor; [|constructor]. right.
      unfold token_pending. simpl.
      split; [apply (inv_line _ _ I)|]. repeat split; lia.
Qed.

Lemma scan_inv_body (st : Scan) :
  scan_inv input st -> cur st < length input ->
  scan_inv input (tokenize_body input st).
Proof.
  intros I Hlt. destruct (inv_bounds _ _ I) as [B1 B2].
  destruct (skipn_at input (cur st) Hlt) as (c & rest & E & _).
  pose proof (tokenize_body_advances input st Hlt) as A.
  revert A. unfold tokenize_body. rewrite E.
  destruct (classify c rest) eqn:R; simpl; intros A.
  - (* newline *)
    apply classify_newline_inv in R. subst c.
    constructor; simpl.
    + lia.
    + rewrite length_app, (inv_line _ _ I). simpl. lia.
    + left. rewrite Nat.sub_diag. reflexivity.
    + rewrite join_lines_app, (inv_join _ _ I), app_assoc.
      rewrite firstn_chars_between by lia.
      replace (cur st + 1) with (S (cur st)) by lia.
      symmetry. now apply firstn_succ_skipn with (rest := rest).
    + rewrite line_offsets_app, (inv_join _ _ I), length_firstn.
      rewrite (inv_offsets _ _ I) at 1. f_equal. f_equal. lia.
    + eapply Forall_impl; [|apply (inv_tokens _ _ I)].
      intros t [H|H]; left.
      * now apply token_on_line_extend.
      * apply token_pending_closed; auto; lia.
  - (* whitespace *)
    assert (N : c <> newline).
    { intros ->. unfold classify in R. simpl in R. discriminate. }
    pose proof (scan_inv_col_left st c rest I E N) as C.
    constructor; simpl.
    + lia.
    + apply (inv_line _ _ I).
    + left. rewrite C. lia.
    + apply (inv_join _ _ I).
    + apply (inv_offsets _ _ I).
    + eapply Forall_impl; [|apply (inv_tokens _ _ I)].
      intros t [H|(P1 & P2 & P3 & P4 & P5)]; [now left|right].
      unfold token_pending. simpl. repeat split; try assumption; lia.
  - (* comment *)
    constructor; simpl.
    + lia.
    + apply (inv_line _ _ I).
    + right. rewrite skipn_plus_at, E. exact (skip_comment_stops (c :: rest)).
    + apply (inv_join _ _ I).
    + apply (inv_offsets _ _ I).
    + eapply Forall_impl; [|apply (inv_tokens _ _ I)].
      intros t [H|(P1 & P2 & P3 & P4 & P5)]; [now left|right].
      unfold token_pending. simpl. repeat split; try assumption; lia.
  - apply scan_inv_add_token; auto; try lia.
    apply (scan_inv_col_left st c rest I E).
    intros ->. unfold classify in R. simpl in R. discriminate.
  - apply scan_inv_add_token; auto; try lia.
    apply (scan_inv_col_left st c rest I E).
    intros ->. unfold classify in R. simpl in R. discriminate.
  - apply scan_inv_add_token; auto; try lia.
    apply (scan_inv_col_left st c rest I E).
    intros ->. unfold classify in R. simpl in R. discriminate.
  - apply scan_inv_add_token; auto; try lia.
    apply (scan_inv_col_left st c rest I E).
    intros ->. unfold classify in R. simpl in R. discriminate.
Qed.

Lemma scan_inv_loop (fuel : nat) :
  scan_inv input (tokenize_loop input fuel tokenize_init).
Proof.
  apply (tokenize_loop_invariant input (scan_inv input)).
  - intros st I H. now apply scan_inv_body.
  - apply scan_inv_init.
Qed.

End ScanInvariant.

(** ** The line table and the positions of the tokens *)

Lemma tokenize_line_facts (input : list ascii) :
  (join_lines (lines_ (tokenize input)) = input \/
   join_lines (lines_ (tokenize input)) = input ++ [newline]) /\
  lines_scan_ (tokenize input) = line_offsets 0 (lines_ (tokenize input)) /\
  Forall (token_on_line input (lines_ (tokenize input))
                        (lines_scan_ (tokenize input)))
         (tokens_ (tokenize input)) /\
  length (lines_ (tokenize input)) <= length input.
Proof.
  unfold tokenize.
  pose proof (scan_inv_loop input (length input)) as I.
  assert (C : cur (tokenize_loop input (length input) tokenize_init) =
              length input)
    by (apply tokenize_loop_reaches_end; simpl; lia).
  set (st := tokenize_loop input (length input) tokenize_init) in *.
  destruct (inv_bounds _ _ I) as [B1 B2].
  pose proof (length_join_lines (lines_ st)) as LJ.
  rewrite (inv_join _ _ I), length_firstn in LJ.
  unfold tokenize_finish.
  destruct (start st <? length input) eqn:K; simpl.
  - apply Nat.ltb_lt in K.
    split; [right|split; [|split]].
    + rewrite join_lines_app, (inv_join _ _ I), app_assoc.
      rewrite firstn_chars_between by lia. now rewrite firstn_all.
    + rewrite line_offsets_app, (inv_join _ _ I), length_firstn.
      rewrite (inv_offsets _ _ I) at 1. f_equal. f_equal. lia.
    + eapply Forall_impl; [|apply (inv_tokens _ _ I)].
      intros t [H|H].
      * now apply token_on_line_extend.
      * apply token_pending_closed; auto; lia.
    + rewrite length_app. simpl. lia.
  - apply Nat.ltb_ge in K.
    split; [left|split; [|split]].
    + rewrite (inv_join _ _ I). apply firstn_all2. lia.
    + apply (inv_offsets _ _ I).
    + eapply Forall_impl; [|apply (inv_tokens _ _ I)].
      intros t [H|(P1 & P2 & P3 & P4 & P5)]; [assumption|lia].
    + lia.
Qed.

Lemma line_offsets_in_join (ls : list (list ascii)) :
  forall pre post : list ascii,
    Forall2 (fun text off =>
               exists a b, pre ++ join_lines ls ++ post =
                           a ++ text ++ newline :: b /\
                           length a = off)
            ls (line_offsets (length pre) ls).
Proof.
  induction ls as [|l ls IH]; intros pre post; simpl.
  - constructor.
  - constructor.
    + exists pre, (join_lines ls ++ post). split; [|reflexivity].
      unfold join_lines. simpl. now rewrite <- !app_assoc.
    + specialize (IH (pre ++ l ++ [newline]) post).
      rewrite !length_app in IH. simpl in IH.
      rewrite Nat.add_assoc in IH.
      eapply Forall2_impl; [|exact IH].
      intros text off (a & b & E & L). exists a, b. split; [|assumption].
      rewrite <- E. unfold join_lines. simpl. now rewrite <- !app_assoc.
Qed.

Lemma line_at_inside (input a text b : list ascii) :
  input = a ++ text ++ b -> line_at input text (length a).
Proof.
  intros ->. unfold line_at. split.
  - rewrite !length_app. lia.
  - rewrite chars_between_at, skipn_app, skipn_all, Nat.sub_diag. simpl.
    rewrite firstn_app, firstn_all, Nat.sub_diag. simpl.
    now rewrite app_nil_r.
Qed.

(** A line of the joined text is a line of the input, closed by a newline
    of the input or by its end. *)
Lemma joined_line_in_input (input a text b : list ascii) :
  a ++ text ++ newline :: b = input \/
  a ++ text ++ newline :: b = input ++ [newline] ->
  line_at input text (length a) /\
  (length a + length text = length input \/
   nth_error input (length a + length text) = Some newline).
Proof.
  assert (Nth : forall b', nth_error (a ++ text ++ newline :: b')
                                     (length a + length text) =
                           Some newline).
  { intros b'. rewrite nth_error_app2 by lia.
    rewrite nth_error_app2 by lia.
    replace (length a + length text - length a - length text) with 0 by lia.
    reflexivity. }
  intros [E|E].
  - split; [apply (line_at_inside input a text (newline :: b)); auto|].
    right. rewrite <- E. apply Nth.
  - destruct (exists_last (l := newline :: b)) as (b0 & x & Eb);
      [discriminate|].
    rewrite Eb in E.
    replace (a ++ text ++ b0 ++ [x]) with ((a ++ text ++ b0) ++ [x]) in E
      by now rewrite <- !app_assoc.
    apply app_inj_tail in E. destruct E as [E _].
    split; [apply (line_at_inside input a text b0); auto|].
    destruct b0 as [|y b1].
    + left. rewrite <- E, app_nil_r, length_app. reflexivity.
    + right. simpl in Eb. inversion Eb; subst y.
      rewrite <- E. apply Nth.
Qed.

(** X3: the line table gives the input back: the recorded lines, each followed
    by a newline, are the input, or the input and one more newline when
    the last line of the input is not closed by one; [lines_scan] holds the
    running offsets of the lines, and no more lines are recorded than the
    input has characters. *)
Theorem lines_round_trip (input : list ascii) :
  (join_lines (lines_ (tokenize input)) = input \/
   join_lines (lines_ (tokenize input)) = input ++ [newline]) /\
  lines_scan_ (tokenize input) = line_offsets 0 (lines_ (tokenize input)) /\
  length (lines_ (tokenize input)) <= length input.
Proof.
  destruct (tokenize_line_facts input) as (J & O & _ & L). auto.
Qed.

(** X4: each recorded line is the text of the buffer at the offset recorded for
    it in [lines_scan], and it ends just before a newline of the buffer or
    at the end of the buffer. *)
Theorem lines_scan_locates_lines (input : list ascii) :
  Forall2 (fun text off =>
             line_at input text off /\
             (off + length text = length input \/
              nth_error input (off + length text) = Some newline))
          (lines_ (tokenize input)) (lines_scan_ (tokenize input)).
Proof.
  destruct (tokenize_line_facts input) as (J & O & _).
  rewrite O.
  pose proof (line_offsets_in_join (lines_ (tokenize input)) [] []) as F.
  simpl in F. rewrite app_nil_r in F.
  eapply Forall2_impl; [|exact F].
  intros text off (a & b & E & L). subst off.
  apply (joined_line_in_input input a text b).
  rewrite <- E. exact J.
Qed.

Lemma token_on_line_text (input : list ascii) (t : Token)
      (text : list ascii) (off : nat) :
  off <= begin_ (value t) ->
  end_ (value t) <= off + length text ->
  line_at input text off ->
  str input (value t) =
  firstn (length_ (value t)) (skipn (begin_ (value t) - off) text).
Proof.
  intros H1 H2 [L E]. unfold str, length_, chars_between.
  rewrite E at 1. rewrite chars_between_at.
  rewrite skipn_firstn_comm, firstn_firstn, skipn_skipn.
  replace (begin_ (value t) - off + off) with (begin_ (value t)) by lia.
  f_equal. lia.
Qed.


(** ** The spans of the tokens *)

Lemma spans_ordered_le (a b : nat) (ts : list Token) :
  spans_ordered a ts b -> a + length ts <= b.
Proof.
  revert a; induction ts as [|t ts IH]; intros a; simpl.
  - lia.
  - intros (H1 & H2 & H3). specialize (IH _ H3). lia.
Qed.

Lemma spans_ordered_weaken (a b b' : nat) (ts : list Token) :
  spans_ordered a ts b -> b <= b' -> spans_ordered a ts b'.
Proof.
  revert a; induction ts as [|t ts IH]; intros a; simpl.
  - lia.
  - intros (H1 & H2 & H3) Hb. repeat split; auto.
Qed.

Lemma spans_ordered_snoc (a b : nat) (ts : list Token) (t : Token) :
  spans_ordered a ts b -> b <= begin_ (value t) ->
  begin_ (value t) < end_ (value t) ->
  spans_ordered a (ts ++ [t]) (end_ (value t)).
Proof.
  revert a; induction ts as [|t0 ts IH]; intros a; simpl.
  - intros. repeat split; lia.
  - intros (H1 & H2 & H3) Hb Ht. repeat split; auto.
Qed.

Lemma spans_ordered_tokenize (input : list ascii) :
  spans_ordered 0 (tokens_ (tokenize input)) (length input).
Proof.
  unfold tokenize.
  rewrite (proj1 (proj2 (tokenize_finish_same input _))).
  pose proof (tokenize_loop_reaches_end input (length input) tokenize_init)
    as C.
  rewrite <- C at 2 by (simpl; lia).
  apply (tokenize_loop_invariant input
           (fun st => spans_ordered 0 (tokens_ st) (cur st))).
  - intros st HP Hlt.
    destruct (skipn_at input (cur st) Hlt) as (c & rest & E & _).
    destruct (tokenize_body_turn input st c rest E) as [A T].
    rewrite T. unfold emitted_by.
    destruct (rule_token (classify c rest)).
    + apply (spans_ordered_snoc 0 (cur st)); simpl; auto; lia.
    + rewrite app_nil_r. eapply spans_ordered_weaken; [exact HP|lia].
  - simpl. lia.
Qed.

(** X1: the tokens lie in the buffer in the order of the stream: every span is
    non-empty and inside the buffer, and each token starts at or after the
    end of the one before it. *)
Theorem token_spans_ordered (input : list ascii) :
  spans_ordered 0 (tokens_ (tokenize input)) (length input).
Proof. apply spans_ordered_tokenize. Qed.

Lemma cursor_inv_new (input : list ascii) :
  cursor_inv (new_TokenStream input).
Proof. unfold cursor_inv, size. simpl. lia. Qed.

Lemma size_new (input : list ascii) :
  (size (new_TokenStream input) <= Z.of_nat (length input))%Z.
Proof.
  pose proof (spans_ordered_le _ _ _ (spans_ordered_tokenize input)).
  unfold size. simpl. lia.
Qed.

Lemma refs_in_buffer_new (input : list ascii) :
  refs_in_buffer (new_TokenStream input).
Proof.
  pose proof (spans_ordered_tokenize input) as S.
  unfold refs_in_buffer. simpl.
  revert S. generalize 0. generalize (tokens_ (tokenize input)).
  induction l as [|t l IH]; intros a; simpl.
  - constructor.
  - intros (H1 & H2 & H3). constructor; [|now apply (IH _ H3)].
    apply spans_ordered_le in H3. lia.
Qed.

(** X2: a stream has no more tokens than its source has characters, so the
    tokens of a source a [size_t] can measure are counted by a [size_t];
    and the token references of a new stream lie inside its buffer. *)
Theorem new_stream_size (input : list ascii) :
  (size (new_TokenStream input) <= Z.of_nat (length input))%Z /\
  refs_in_buffer (new_TokenStream input).
Proof. split; [apply size_new|apply refs_in_buffer_new]. Qed.

(** ** The lexical shape of the tokens *)

Lemma scan_literal_text (l : list ascii) :
  forallb literal_char (firstn (scan_literal l) l) = true /\
  next_char_is literal_char (skipn (scan_literal l) l) = false.
Proof.
  induction l as [|c r IH]; simpl; [auto|].
  fold (literal_char c).
  destruct (literal_char c) eqn:E; simpl.
  - rewrite E. exact IH.
  - auto.
Qed.

Lemma scan_string_text (q : ascii) (l : list ascii) :
  backslash <> q ->
  unterminated q (firstn (scan_string q l) l) /\
  (skipn (scan_string q l) l = [] \/
   exists r, skipn (scan_string q l) l = q :: r).
Proof.
  intros Hq.
  assert (H : forall n l, length l <= n ->
              unterminated q (firstn (scan_string q l) l) /\
              (skipn (scan_string q l) l = [] \/
               exists r, skipn (scan_string q l) l = q :: r)).
  { induction n as [|n IH]; intros [|c r] Hl; simpl in *; try lia.
    - split; [constructor|now left].
    - split; [constructor|now left].
    - destruct (c =? q)%char eqn:E.
      + apply Ascii.eqb_eq in E. subst c. simpl.
        split; [constructor|right; eauto].
      + apply Ascii.eqb_neq in E.
        destruct (c =? backslash)%char eqn:B.
        * apply Ascii.eqb_eq in B. subst c.
          destruct r as [|c' r']; simpl in *.
          -- split; [now constructor|now left].
          -- destruct (IH r') as [U S]; [lia|].
             split; [now constructor|exact S].
        * apply Ascii.eqb_neq in B.
          destruct (IH r) as [U S]; [lia|].
          simpl. split; [now constructor|exact S]. }
  now apply (H (length l)).
Qed.

Lemma classify_string_inv (c : ascii) (rest : list ascii) :
  classify c rest = RString -> c = dquote \/ c = squote.
Proof.
  unfold classify. destruct (c =? newline)%char; [discriminate|].
  destruct (isspace c); [discriminate|].
  destruct ((c =? "/")%char && _); [discriminate|].
  destruct (c =? dquote)%char eqn:D.
  - apply Ascii.eqb_eq in D. now left.
  - destruct (c =? squote)%char eqn:S; simpl.
    + apply Ascii.eqb_eq in S. now right.
    + repeat match goal with
             | |- context [if ?b then _ else _] => destruct b
             end; discriminate.
Qed.

Lemma classify_number_inv (c : ascii) (rest : list ascii) :
  classify c rest = RNumber ->
  isdigit c = true \/ (c = "."%char /\ next_char_is isdigit rest = true).
Proof.
  unfold classify. destruct (c =? newline)%char; [discriminate|].
  destruct (isspace c); [discriminate|].
  destruct ((c =? "/")%char && _); [discriminate|].
  destruct ((c =? dquote)%char || _); [discriminate|].
  destruct (isdigit c); [now left|]. simpl.
  destruct (c =? ".")%char eqn:D; simpl.
  - apply Ascii.eqb_eq in D.
    destruct (next_char_is isdigit rest); [now right|].
    destruct (isalpha c || _); discriminate.
  - destruct (isalpha c || _); discriminate.
Qed.

Lemma classify_literal_inv (c : ascii) (rest : list ascii) :
  classify c rest = RLiteral -> (isalpha c || (c =? "_")%char) = true.
Proof.
  unfold classify. destruct (c =? newline)%char; [discriminate|].
  destruct (isspace c); [discriminate|].
  destruct ((c =? "/")%char && _); [discriminate|].
  destruct ((c =? dquote)%char || _); [discriminate|].
  destruct (isdigit c || _); [discriminate|].
  destruct (isalpha c || (c =? "_")%char); [reflexivity|discriminate].
Qed.

Lemma number_rule_has_digit (c : ascii) (rest : list ascii) :
  classify c rest = RNumber ->
  existsb isdigit (firstn (scan_number false (c :: rest)) (c :: rest)) = true.
Proof.
  intros R. destruct (classify_number_inv c rest R) as [D|[-> D]].
  - simpl. rewrite D. simpl. now rewrite D.
  - destruct rest as [|d r]; simpl in D; [discriminate|].
    simpl. rewrite D. simpl. rewrite D. reflexivity.
Qed.

Lemma literal_rule_first (c : ascii) :
  (isalpha c || (c =? "_")%char) = true -> literal_char c = true.
Proof.
  unfold literal_char, isalnum.
  destruct (isalpha c); simpl; [reflexivity|].
  intros ->. apply orb_true_r.
Qed.

Lemma tokenize_body_shape (input : list ascii) (st : Scan) (c : ascii)
      (rest : list ascii) (ty : TokenType) :
  skipn (cur st) input = c :: rest ->
  rule_token (classify c rest) = Some ty ->
  token_shape ty
              (chars_between input (cur st) (cur (tokenize_body input st)))
              (skipn (cur (tokenize_body input st)) input).
Proof.
  intros E. pose proof (length_skipn (cur st) input) as L.
  rewrite E in L. simpl in L.
  unfold tokenize_body. rewrite E.
  destruct (classify c rest) eqn:R; simpl; intros T; inversion T; subst ty;
    clear T.
  - (* string *)
    destruct (classify_string_inv c rest R) as [Hq|Hq].
    all: assert (Hb : backslash <> c) by (subst c; discriminate).
    all: destruct (scan_string_text c rest Hb) as [U Hs].
    all: pose proof (scan_string_le c rest) as B.
    all: exists c, (firstn (scan_string c rest) rest).
    all: split; [auto|]; split; [exact U|].
    all: destruct (cur st + 1 + scan_string c rest <? length input) eqn:K;
      [apply Nat.ltb_lt in K|apply Nat.ltb_ge in K].
    all: try (left;
              replace (cur st + 1 + scan_string c rest + 1)
                with (cur st + S (S (scan_string c rest))) by lia;
              rewrite chars_between_at, E;
              destruct Hs as [Hs|[r Hs]];
              [apply skipn_all_iff in Hs; lia|];
              cbn [firstn]; f_equal;
              now apply firstn_succ_skipn with (rest := r)).
    all: right;
      replace (cur st + 1 + scan_string c rest)
        with (cur st + S (scan_string c rest)) by lia;
      rewrite chars_between_at, skipn_plus_at, E; cbn [firstn skipn];
      split; [reflexivity|apply skipn_all_iff; lia].
  - (* number *)
    rewrite chars_between_at, skipn_plus_at, E.
    destruct (scan_number_text false (c :: rest)) as [F N].
    pose proof (scan_number_stops false (c :: rest)) as Hs.
    rewrite Nat.add_0_r in N.
    split; [split; [exact F|exact N]|].
    split; [exact (number_rule_has_digit c rest R)|].
    destruct (skipn _ (c :: rest)); [reflexivity|].
    simpl. apply Hs.
  - (* literal *)
    rewrite chars_between_at, skipn_plus_at, E.
    pose proof (classify_literal_inv c rest R) as F.
    pose proof (literal_rule_first c F) as F'.
    destruct (scan_literal_text rest) as [A Hs].
    simpl. fold (literal_char c). rewrite F'. simpl.
    split; [|exact Hs].
    exists c, (firstn (scan_literal rest) rest). auto.
  - (* operator *)
    rewrite chars_between_at, E.
    pose proof (scan_operator_bounds c rest) as B.
    unfold token_shape. rewrite length_firstn. simpl length. lia.
Qed.

Lemma tokens_shaped (input : list ascii) :
  Forall (fun t => token_shape (type t) (str input (value t))
                               (skipn (end_ (value t)) input))
         (tokens_ (tokenize input)).
Proof.
  unfold tokenize.
  rewrite (proj1 (proj2 (tokenize_finish_same input _))).
  apply (tokenize_loop_invariant input
           (fun st => Forall (fun t => token_shape (type t)
                                         (str input (value t))
                                         (skipn (end_ (value t)) input))
                             (tokens_ st))).
  - intros st HP Hlt.
    destruct (skipn_at input (cur st) Hlt) as (c & rest & E & _).
    rewrite (proj2 (tokenize_body_turn input st c rest E)).
    apply Forall_app. split; [assumption|].
    unfold emitted_by.
    destruct (rule_token (classify c rest)) as [ty|] eqn:T; constructor;
      [|constructor].
    exact (tokenize_body_shape input st c rest ty E T).
  - constructor.
Qed.

Lemma existsb_dot (l : list ascii) :
  existsb (fun c => (c =? ".")%char) l = true <-> 1 <= dots l.
Proof.
  unfold dots. induction l as [|a l IH]; simpl.
  - split; [discriminate|lia].
  - destruct (a =? ".")%char eqn:E; simpl.
    + apply Ascii.eqb_eq in E. subst a.
      destruct (ascii_dec "." "."); [|congruence]. split; [lia|reflexivity].
    + apply Ascii.eqb_neq in E.
      destruct (ascii_dec a "."); [congruence|]. exact IH.
Qed.

(** X6: every NUMBER token of every source is made of digits and at most one
    ['.'], holds at least one digit, and is not followed by a digit;
    [is_float] answers true for it exactly when its text holds a ['.']. *)
Theorem number_tokens_text (input : list ascii) :
  Forall (fun t =>
            type t = NUMBER ->
            number_text (str input (value t)) /\
            existsb isdigit (str input (value t)) = true /\
            next_char_is isdigit (skipn (end_ (value t)) input) = false /\
            (is_float input t = true <-> dots (str input (value t)) = 1))
         (tokens_ (tokenize input)).
Proof.
  eapply Forall_impl; [|apply tokens_shaped].
  intros t H T. cbv beta in H. rewrite T in H.
  destruct H as ((F & N) & D & M).
  split; [now split|]. split; [assumption|]. split; [assumption|].
  unfold is_float. rewrite T. simpl. rewrite existsb_dot. lia.
Qed.

(** The one token of the source 1.5 . *)
Lemma number_tokens_text_witness :
  number_text (src "1.5") /\
  existsb isdigit (src "1.5") = true /\
  next_char_is isdigit [] = false /\
  (is_float (src "1.5") (mkToken NUMBER (mkStringRef 0 3) 0 0) = true <->
   dots (src "1.5") = 1).
Proof.
  exact (Forall_inv (number_tokens_text (src "1.5")) eq_refl).
Defined.

(** X7: every LITERAL token of every source starts with a letter or an
    underscore, goes on with letters, digits and underscores only, and is
    not followed by one of these. *)
Theorem literal_tokens_text (input : list ascii) :
  Forall (fun t =>
            type t = LITERAL ->
            (exists c l, str input (value t) = c :: l /\
                         (isalpha c || (c =? "_")%char) = true /\
                         forallb literal_char l = true) /\
            next_char_is literal_char (skipn (end_ (value t)) input) = false)
         (tokens_ (tokenize input)).
Proof.
  eapply Forall_impl; [|apply tokens_shaped].
  intros t H T. cbv beta in H. rewrite T in H. exact H.
Qed.

(** The first token of the source x_1+2 . *)
Lemma literal_tokens_text_witness :
  (exists c l, src "x_1" = c :: l /\
               (isalpha c || (c =? "_")%char) = true /\
               forallb literal_char l = true) /\
  next_char_is literal_char (src "+2") = false.
Proof.
  exact (Forall_inv (literal_tokens_text (src "x_1+2")) eq_refl).
Defined.

(** X8: every STRING token of every source starts with a quote, holds after it
    no quote of that kind other than escaped ones, and then either ends
    with the same quote or runs to the end of the source. *)
Theorem string_tokens_text (input : list ascii) :
  Forall (fun t =>
            type t = STRING ->
            exists q body,
              (q = dquote \/ q = squote) /\ unterminated q body /\
              (str input (value t) = q :: body ++ [q] \/
               (str input (value t) = q :: body /\
                skipn (end_ (value t)) input = [])))
         (tokens_ (tokenize input)).
Proof.
  eapply Forall_impl; [|apply tokens_shaped].
  intros t H T. cbv beta in H. rewrite T in H. exact H.
Qed.

(** The first token of the source 'a'+ . *)
Lemma string_tokens_text_witness :
  exists q body,
    (q = dquote \/ q = squote) /\ unterminated q body /\
    (src "'a'" = q :: body ++ [q] \/
     (src "'a'" = q :: body /\ src "+" = [])).
Proof.
  exact (Forall_inv (string_tokens_text (src "'a'+")) eq_refl).
Defined.

(** ** Sources without tokens *)

Lemma classify_space (c : ascii) (rest : list ascii) :
  isspace c = true ->
  classify c rest = RNewline \/ classify c rest = RSpace.
Proof.
  intros H. unfold classify. destruct (c =? newline)%char; [now left|].
  rewrite H. now right.
Qed.

(** X9: a source made of whitespace only, newlines included, has no token. *)
Theorem whitespace_has_no_tokens (input : list ascii) :
  forallb isspace input = true -> tokens_ (tokenize input) = [].
Proof.
  intros W. unfold tokenize.
  rewrite (proj1 (proj2 (tokenize_finish_same input _))).
  apply (tokenize_loop_invariant input (fun st => tokens_ st = [])).
  - intros st HP Hlt.
    destruct (skipn_at input (cur st) Hlt) as (c & rest & E & _).
    rewrite (proj2 (tokenize_body_turn input st c rest E)), HP.
    assert (Sp : isspace c = true).
    { rewrite forallb_forall in W. apply W.
      rewrite <- (firstn_skipn (cur st) input), E.
      apply in_or_app. right. now left. }
    unfold emitted_by.
    destruct (classify_space c rest Sp) as [-> | ->]; reflexivity.
  - reflexivity.
Qed.

(** Two lines of blanks. *)
Lemma whitespace_has_no_tokens_witness :
  tokens_ (tokenize [" "; newline; "009"; " "]) = [].
Proof.
  apply (whitespace_has_no_tokens [" "; newline; "009"; " "]). reflexivity.
Defined.

(** * Further properties of the stream *)

(** ** Comparing a token with a text *)

Lemma StringRef_eq_str (buffer : list ascii) (r : StringRef)
      (x : list ascii) :
  begin_ r <= end_ r -> end_ r <= length buffer ->
  (StringRef_eq buffer r x = true <-> str buffer r = x).
Proof.
  intros H1 H2. unfold StringRef_eq, str, length_, chars_between.
  assert (L : length (firstn (end_ r - begin_ r) (skipn (begin_ r) buffer)) =
              end_ r - begin_ r).
  { rewrite length_firstn, length_skipn. lia. }
  split.
  - intros H. apply andb_prop in H. destruct H as [Hl He].
    apply Nat.eqb_eq in Hl. rewrite Hl.
    destruct (list_eq_dec _ _ _); [assumption|discriminate].
  - intros E.
    assert (Lx : length x = end_ r - begin_ r) by (rewrite <- E; exact L).
    rewrite Lx, Nat.eqb_refl. simpl.
    destruct (list_eq_dec _ _ _); [reflexivity|contradiction].
Qed.

(** X10: [operator==] of a reference that lies inside the buffer holds exactly
    when the text of the reference is the given text. *)
Theorem StringRef_eq_text (buffer : list ascii) (r : StringRef)
        (x : list ascii) :
  begin_ r <= end_ r -> end_ r <= length buffer ->
  (StringRef_eq buffer r x = true <-> str buffer r = x).
Proof. apply StringRef_eq_str. Qed.

(** The reference 1..3 into the buffer (ab) is the text ab. *)
Lemma StringRef_eq_text_witness :
  StringRef_eq (src "(ab)") (mkStringRef 1 3) (src "ab") = true <->
  str (src "(ab)") (mkStringRef 1 3) = src "ab".
Proof.
  apply (StringRef_eq_text (src "(ab)") (mkStringRef 1 3) (src "ab"));
    simpl; lia.
Defined.

Lemma token_at_nth_error (s : TokenStream) (i : Z) :
  (0 <= i < size s)%Z ->
  nth_error (tokens s) (Z.to_nat i) = Some (token_at s i).
Proof.
  intros H. unfold token_at. apply nth_error_nth'.
  unfold size in H. lia.
Qed.

Lemma token_at_in (s : TokenStream) (i : Z) :
  (0 <= i < size s)%Z -> In (token_at s i) (tokens s).
Proof.
  intros H. eapply nth_error_In. now apply token_at_nth_error.
Qed.

(** X11: on a stream whose references lie inside its buffer, [consume] returns
    true, and moves the cursor one token on, exactly when the cursor is
    on a token whose text is the given text; otherwise it returns false
    and leaves the stream as it is. *)
Theorem consume_exact_text (s : TokenStream) (x : list ascii) :
  cursor_inv s -> refs_in_buffer s ->
  ((pos s < size s)%Z /\
   str (string_ s) (value (token_at s (pos s))) = x ->
   consume x s = Ok true (pos_incr s)) /\
  (~ ((pos s < size s)%Z /\
      str (string_ s) (value (token_at s (pos s))) = x) ->
   consume x s = Ok false s).
Proof.
  intros [H0 H1] R.
  assert (Eq : (pos s < size s)%Z ->
               (StringRef_eq (string_ s) (value (token_at s (pos s))) x = true
                <-> str (string_ s) (value (token_at s (pos s))) = x)).
  { intros K. unfold refs_in_buffer in R. rewrite Forall_forall in R.
    destruct (R (token_at s (pos s))) as [A B];
      [apply token_at_in; lia|].
    now apply StringRef_eq_str. }
  destruct (consume_cases x s) as [[[K On] E]|[N E]]; rewrite E.
  - split; [reflexivity|]. intros N. exfalso. apply N.
    split; [assumption|]. now apply Eq.
  - split; [|reflexivity]. intros [K T]. exfalso. apply N.
    split; [assumption|]. now apply Eq.
Qed.

(** [consume] of the text a, then of the text b, at the start of the
    stream of the source "a b". *)
Lemma consume_exact_text_witness :
  consume (src "a") (new_TokenStream (src "a b")) =
    Ok true (pos_incr (new_TokenStream (src "a b"))) /\
  consume (src "b") (new_TokenStream (src "a b")) =
    Ok false (new_TokenStream (src "a b")).
Proof.
  destruct (consume_exact_text (new_TokenStream (src "a b")) (src "a")
              (cursor_inv_new (src "a b"))
              (refs_in_buffer_new (src "a b"))) as [Yes _].
  destruct (consume_exact_text (new_TokenStream (src "a b")) (src "b")
              (cursor_inv_new (src "a b"))
              (refs_in_buffer_new (src "a b"))) as [_ No].
  split.
  - apply Yes. split; reflexivity.
  - apply No. intros [_ H]. discriminate H.
Defined.

(** ** Lists of tokens up to an end text *)

Lemma skipn_nth {A} (l : list A) (n : nat) (d : A) :
  n < length l -> skipn n l = nth n l d :: skipn (S n) l.
Proof.
  intros H. apply skipn_nth_error. now apply nth_error_nth'.
Qed.

Lemma rest_tokens_cons (s : TokenStream) :
  (0 <= pos s < size s)%Z -> (size s < 2 ^ 64)%Z ->
  rest_tokens s = token_at s (pos s) :: rest_tokens (pos_incr s).
Proof.
  intros H Hs. unfold rest_tokens, token_at, pos_incr. simpl.
  rewrite wrap64_small by lia.
  replace (Z.to_nat (pos s + 1)) with (S (Z.to_nat (pos s))) by lia.
  apply skipn_nth. unfold size in H. lia.
Qed.

Lemma rest_tokens_nil (s : TokenStream) :
  (size s <= pos s)%Z -> rest_tokens s = [].
Proof.
  intros H. unfold rest_tokens. apply skipn_all2. unfold size in H. lia.
Qed.

Lemma length_rest_tokens (s : TokenStream) :
  cursor_inv s -> Z.of_nat (length (rest_tokens s)) = (size s - pos s)%Z.
Proof.
  intros [H0 H1]. unfold rest_tokens, size in *. rewrite length_skipn. lia.
Qed.

Lemma set_pos_same (s : TokenStream) (p : Z) : p = pos s -> set_pos s p = s.
Proof. intros ->. destruct s; reflexivity. Qed.

Lemma take_until_prefix (p : Token -> bool) (l : list Token) :
  l = take_until p l ++ skipn (length (take_until p l)) l /\
  Forall (fun t => p t = false) (take_until p l) /\
  match skipn (length (take_until p l)) l with
  | t :: _ => p t = true
  | [] => True
  end.
Proof.
  induction l as [|t l IH]; simpl.
  - repeat split. constructor.
  - destruct (p t) eqn:E; simpl.
    + repeat split; [constructor|assumption].
    + destruct IH as (A & B & C).
      split; [now rewrite <- A|]. split; [now constructor|exact C].
Qed.

Lemma take_until_all (p : Token -> bool) (l : list Token) :
  Forall (fun t => p t = false) l -> take_until p l = l.
Proof.
  induction 1 as [|t l H _ IH]; simpl; [reflexivity|].
  now rewrite H, IH.
Qed.

Lemma get_list_until_loop_returns
      (fuel : nat) (end_tokens : list (list ascii)) (consume_ : bool)
      (result : list Token) (s : TokenStream) :
  cursor_inv s -> (size s < 2 ^ 64)%Z ->
  (size s - pos s < Z.of_nat fuel)%Z ->
  get_list_until_loop fuel end_tokens consume_ result s =
  Ok (result ++ take_until (is_end_token s end_tokens) (rest_tokens s))
     (set_pos s (pos_after_list s consume_
                   (take_until (is_end_token s end_tokens) (rest_tokens s)))).
Proof.
  revert result s; induction fuel as [|fuel IH]; intros result s H Hs Hf.
  - destruct H. lia.
  - cbn [get_list_until_loop]. unfold pos_after_list.
    destruct (pos s <? size s)%Z eqn:K.
    + pose proof K as K'. apply Z.ltb_lt in K'.
      assert (R : (0 <= pos s < size s)%Z) by (destruct H; lia).
      rewrite (rest_tokens_cons s R Hs). cbn [take_until].
      destruct (pos_incr_inv s H K') as (I1 & _ & P1).
      specialize (P1 Hs).
      destruct (is_end_token s end_tokens (token_at s (pos s))) eqn:E.
      * rewrite app_nil_r. simpl length. rewrite Z.add_0_r.
        destruct consume_; simpl.
        -- f_equal. unfold pos_incr. f_equal. rewrite wrap64_small; lia.
        -- f_equal. symmetry. apply set_pos_same. lia.
      * unfold bind, next. rewrite K.
        rewrite (IH (result ++ [token_at s (pos s)]) (pos_incr s) I1);
          [|exact Hs|rewrite P1; change (size (pos_incr s)) with (size s);
                     lia].
        rewrite <- app_assoc. simpl app.
        change (is_end_token (pos_incr s) end_tokens)
          with (is_end_token s end_tokens).
        f_equal. unfold pos_after_list. rewrite P1.
        change (set_pos (pos_incr s)) with (set_pos s).
        f_equal. simpl length.
        change (S ?a <? S ?b) with (a <? b).
        lia.
    + apply Z.ltb_ge in K. rewrite (rest_tokens_nil s K). simpl.
      rewrite app_nil_r, andb_false_r. f_equal.
      symmetry. apply set_pos_same. lia.
Qed.

Lemma get_list_until_returns (end_tokens : list (list ascii))
      (consume_ : bool) (s : TokenStream) :
  cursor_inv s -> (size s < 2 ^ 64)%Z ->
  get_list_until end_tokens consume_ s =
  Ok (take_until (is_end_token s end_tokens) (rest_tokens s))
     (set_pos s (pos_after_list s consume_
                   (take_until (is_end_token s end_tokens) (rest_tokens s)))).
Proof.
  intros H Hs. unfold get_list_until.
  rewrite get_list_until_loop_returns; auto.
  destruct H. unfold size in *. lia.
Qed.

(** X12: on a stream that satisfies the invariant [get_list_until] returns: its
    result is the run of tokens from the cursor up to the first token
    whose text is one of the end texts (all the tokens left when there is
    none), none of the tokens it returns is an end token, the token after
    them, if any, is one, and the cursor ends after the tokens returned,
    and after the end token too when it is to be consumed. *)
Theorem get_list_until_takes_prefix
        (end_tokens : list (list ascii)) (consume_ : bool)
        (s : TokenStream) :
  cursor_inv s -> (size s < 2 ^ 64)%Z ->
  exists taken : list Token,
    get_list_until end_tokens consume_ s =
      Ok taken (set_pos s (pos_after_list s consume_ taken)) /\
    rest_tokens s = taken ++ skipn (length taken) (rest_tokens s) /\
    Forall (fun t => is_end_token s end_tokens t = false) taken /\
    match skipn (length taken) (rest_tokens s) with
    | t :: _ => is_end_token s end_tokens t = true
    | [] => True
    end.
Proof.
  intros H Hs.
  exists (take_until (is_end_token s end_tokens) (rest_tokens s)).
  split; [now apply get_list_until_returns|].
  apply take_until_prefix.
Qed.

(** From the start of the stream of "a b ; c", up to the semicolon. *)
Lemma get_list_until_takes_prefix_witness :
  exists taken : list Token,
    get_list_until [src ";"] false (new_TokenStream (src "a b ; c")) =
      Ok taken (set_pos (new_TokenStream (src "a b ; c"))
                        (pos_after_list (new_TokenStream (src "a b ; c"))
                                        false taken)) /\
    rest_tokens (new_TokenStream (src "a b ; c")) =
      taken ++ skipn (length taken)
                     (rest_tokens (new_TokenStream (src "a b ; c"))) /\
    Forall (fun t => is_end_token (new_TokenStream (src "a b ; c"))
                                  [src ";"] t = false) taken /\
    match skipn (length taken)
                (rest_tokens (new_TokenStream (src "a b ; c"))) with
    | t :: _ => is_end_token (new_TokenStream (src "a b ; c")) [src ";"] t
                = true
    | [] => True
    end.
Proof.
  apply (get_list_until_takes_prefix [src ";"] false
           (new_TokenStream (src "a b ; c"))).
  - apply cursor_inv_new.
  - reflexivity.
Defined.

(** X13: when none of the tokens left is an end token, [get_list_until] returns
    all of them and leaves the cursor at the end of the stream; it does
    not fail. *)
Theorem get_list_until_without_end
        (end_tokens : list (list ascii)) (consume_ : bool)
        (s : TokenStream) :
  cursor_inv s -> (size s < 2 ^ 64)%Z ->
  Forall (fun t => is_end_token s end_tokens t = false) (rest_tokens s) ->
  get_list_until end_tokens consume_ s =
  Ok (rest_tokens s) (set_pos s (size s)).
Proof.
  intros H Hs F.
  rewrite get_list_until_returns by assumption.
  rewrite (take_until_all _ _ F). f_equal. f_equal.
  unfold pos_after_list. rewrite Nat.ltb_irrefl, andb_false_r.
  rewrite (length_rest_tokens s H). lia.
Qed.

(** The stream of "a b" has no semicolon. *)
Lemma get_list_until_without_end_witness :
  get_list_until [src ";"] true (new_TokenStream (src "a b")) =
  Ok (rest_tokens (new_TokenStream (src "a b")))
     (set_pos (new_TokenStream (src "a b"))
              (size (new_TokenStream (src "a b")))).
Proof.
  apply (get_list_until_without_end [src ";"] true
           (new_TokenStream (src "a b"))).
  - apply cursor_inv_new.
  - reflexivity.
  - repeat constructor.
Defined.

(** ** What the groups hold *)

Lemma cursor_on_token_is (s : TokenStream) (x : list ascii) :
  (pos s < size s)%Z ->
  (cursor_on s x <-> token_is s x (token_at s (pos s)) = true).
Proof.
  intros K. unfold cursor_on, token_is. tauto.
Qed.

Lemma take_until_not (p : Token -> bool) (l : list Token) (t : Token) :
  In t (take_until p l) -> p t = false.
Proof.
  intros H. destruct (take_until_prefix p l) as (_ & F & _).
  rewrite Forall_forall in F. now apply F.
Qed.

Lemma pos_after_list_cons (s : TokenStream) (consume_ : bool)
      (taken : list Token) :
  (0 <= pos s < size s)%Z -> (size s < 2 ^ 64)%Z ->
  pos_after_list (pos_incr s) consume_ taken =
  pos_after_list s consume_ (token_at s (pos s) :: taken).
Proof.
  intros R Hs. unfold pos_after_list.
  rewrite (rest_tokens_cons s R Hs).
  replace (pos (pos_incr s)) with (pos s + 1)%Z
    by (unfold pos_incr; simpl; rewrite wrap64_small; lia).
  simpl length. change (S (length taken) <? S ?b) with (length taken <? b).
  lia.
Qed.

Lemma pos_after_list_found (s : TokenStream) :
  (0 <= pos s < size s)%Z -> (size s < 2 ^ 64)%Z ->
  set_pos s (pos_after_list s true []) = pos_incr s.
Proof.
  intros R Hs. unfold pos_after_list.
  rewrite (rest_tokens_cons s R Hs). simpl.
  unfold pos_incr. f_equal. rewrite wrap64_small; lia.
Qed.

Lemma token_groups_loop_returns
      (fuel : nat) (end_s separator : list ascii)
      (groups : list (list Token)) (current_group : list Token)
      (s : TokenStream) :
  cursor_inv s -> (size s < 2 ^ 64)%Z ->
  (size s - pos s < Z.of_nat fuel)%Z ->
  exists g c s',
    token_groups_loop fuel end_s separator groups current_group s =
      Ok (g, c) s' /\
    concat g ++ c =
      concat groups ++ current_group ++
      filter (fun t => negb (token_is s separator t))
             (take_until (token_is s end_s) (rest_tokens s)) /\
    s' = set_pos s (pos_after_list s true
                      (take_until (token_is s end_s) (rest_tokens s))).
Proof.
  revert groups current_group s;
    induction fuel as [|fuel IH]; intros groups current_group s H Hs Hf.
  - destruct H. lia.
  - cbn [token_groups_loop].
    destruct (pos s <? size s)%Z eqn:K.
    + pose proof K as K'. apply Z.ltb_lt in K'.
      assert (R : (0 <= pos s < size s)%Z) by (destruct H; lia).
      rewrite (rest_tokens_cons s R Hs). cbn [take_until].
      destruct (pos_incr_inv s H K') as (I1 & _ & P1).
      specialize (P1 Hs).
      assert (Hf' : (size (pos_incr s) - pos (pos_incr s) <
                     Z.of_nat fuel)%Z).
      { rewrite P1. change (size (pos_incr s)) with (size s). lia. }
      assert (Step : forall g0 c0,
                 exists g c s',
                   token_groups_loop fuel end_s separator g0 c0
                                     (pos_incr s) = Ok (g, c) s' /\
                   concat g ++ c =
                     concat g0 ++ c0 ++
                     filter (fun t => negb (token_is s separator t))
                            (take_until (token_is s end_s)
                                        (rest_tokens (pos_incr s))) /\
                   s' = set_pos s
                          (pos_after_list s true
                             (token_at s (pos s) ::
                              take_until (token_is s end_s)
                                         (rest_tokens (pos_incr s))))).
      { intros g0 c0.
        destruct (IH g0 c0 (pos_incr s) I1 Hs Hf') as (g & c & s' & E & C & P).
        exists g, c, s'. split; [exact E|]. split; [exact C|].
        rewrite P, (pos_after_list_cons s true _ R Hs). reflexivity. }
      unfold bind at 1.
      destruct (consume_cases end_s s) as [[On E]|[Off E]]; rewrite E.
      * apply (cursor_on_token_is s end_s K') in On. rewrite On.
        exists groups, current_group, (pos_incr s).
        split; [reflexivity|]. simpl filter. rewrite app_nil_r.
        split; [reflexivity|].
        symmetry. now apply pos_after_list_found.
      * assert (Ne : token_is s end_s (token_at s (pos s)) = false).
        { destruct (token_is s end_s (token_at s (pos s))) eqn:T;
            [|reflexivity].
          exfalso. apply Off. now apply cursor_on_token_is. }
        rewrite Ne. cbn [filter].
        unfold bind at 1.
        destruct (consume_cases separator s) as [[On2 E2]|[Off2 E2]];
          rewrite E2.
        -- apply (cursor_on_token_is s separator K') in On2. rewrite On2.
           simpl negb. cbv iota.
           destruct current_group as [|t0 l0]; simpl negb; cbv iota.
           ++ apply Step.
           ++ destruct (Step (groups ++ [t0 :: l0]) [])
                as (g & c & s' & A & B & C).
              exists g, c, s'. split; [exact A|]. split; [|exact C].
              rewrite B, concat_app. simpl.
              now rewrite app_nil_r, <- app_assoc.
        -- assert (Ns : token_is s separator (token_at s (pos s)) = false).
           { destruct (token_is s separator (token_at s (pos s))) eqn:T;
               [|reflexivity].
             exfalso. apply Off2. now apply cursor_on_token_is. }
           rewrite Ns. simpl negb. cbv iota.
           unfold bind, next. rewrite K.
           destruct (Step groups (current_group ++ [token_at s (pos s)]))
             as (g & c & s' & A & B & C).
           exists g, c, s'. split; [exact A|]. split; [|exact C].
           rewrite B. now rewrite <- app_assoc.
    + apply Z.ltb_ge in K. rewrite (rest_tokens_nil s K). simpl.
      exists groups, current_group, s.
      split; [reflexivity|]. split; [now rewrite app_nil_r|].
      symmetry. apply set_pos_same.
      unfold pos_after_list. rewrite (rest_tokens_nil s K). simpl. lia.
Qed.

(** X14: with the cursor on the start text, [get_token_groups_in_between]
    returns groups that hold, in order, the tokens after the start text up
    to the first token that is the end text (all the tokens left when
    there is none), the separators left out; no group holds a separator
    or an end text; and the cursor ends after the end text, or at the end
    of the stream when there is none. *)
Theorem token_groups_hold_the_tokens
        (start_s end_s separator : list ascii) (s : TokenStream) :
  cursor_inv s -> (size s < 2 ^ 64)%Z -> cursor_on s start_s ->
  exists groups : list (list Token),
    get_token_groups_in_between start_s end_s separator s =
      Ok groups
         (set_pos s (pos_after_list (pos_incr s) true
                       (take_until (token_is s end_s)
                                   (rest_tokens (pos_incr s))))) /\
    concat groups =
      filter (fun t => negb (token_is s separator t))
             (take_until (token_is s end_s) (rest_tokens (pos_incr s))) /\
    Forall (Forall (fun t => token_is s separator t = false /\
                             token_is s end_s t = false))
           groups.
Proof.
  intros H Hs On.
  assert (Facts : forall groups,
             concat groups =
               filter (fun t => negb (token_is s separator t))
                      (take_until (token_is s end_s)
                                  (rest_tokens (pos_incr s))) ->
             Forall (Forall (fun t => token_is s separator t = false /\
                                      token_is s end_s t = false))
                    groups).
  { intros groups C. apply Forall_forall. intros g Hg.
    apply Forall_forall. intros t Ht.
    assert (In t (concat groups)) by (apply in_concat; eauto).
    rewrite C in H0. apply filter_In in H0. destruct H0 as [A B].
    split; [now apply negb_true_iff in B|].
    now apply take_until_not in A. }
  unfold get_token_groups_in_between, bind at 1, assert_.
  destruct (consume_cases start_s s) as [[_ E]|[N _]]; [|contradiction].
  rewrite E. unfold bind at 1.
  destruct On as [K _].
  destruct (pos_incr_inv s H K) as (I1 & _ & P1). specialize (P1 Hs).
  destruct (token_groups_loop_returns
              (S (length (tokens (pos_incr s)))) end_s separator [] []
              (pos_incr s) I1 Hs) as (g & c & s' & L & C & P).
  { destruct I1. unfold size in *. lia. }
  rewrite L. simpl in C.
  change (token_is (pos_incr s)) with (token_is s) in C.
  change (set_pos (pos_incr s)) with (set_pos s) in P.
  subst s'.
  destruct c as [|t0 l0]; simpl.
  - exists g. rewrite app_nil_r in C. auto.
  - exists (g ++ [t0 :: l0]).
    assert (C' : concat (g ++ [t0 :: l0]) =
                 filter (fun t => negb (token_is s separator t))
                        (take_until (token_is s end_s)
                                    (rest_tokens (pos_incr s)))).
    { rewrite concat_app. simpl. now rewrite app_nil_r. }
    auto.
Qed.

(** The groups of the stream of "(a b, c) d". *)
Lemma token_groups_hold_the_tokens_witness :
  exists groups : list (list Token),
    get_token_groups_in_between (src "(") (src ")") (src ",")
                                (new_TokenStream (src "(a b, c) d")) =
      Ok groups
         (set_pos (new_TokenStream (src "(a b, c) d"))
            (pos_after_list (pos_incr (new_TokenStream (src "(a b, c) d")))
               true
               (take_until
                  (token_is (new_TokenStream (src "(a b, c) d")) (src ")"))
                  (rest_tokens
                     (pos_incr (new_TokenStream (src "(a b, c) d"))))))) /\
    concat groups =
      filter (fun t => negb (token_is (new_TokenStream (src "(a b, c) d"))
                                      (src ",") t))
             (take_until
                (token_is (new_TokenStream (src "(a b, c) d")) (src ")"))
                (rest_tokens
                   (pos_incr (new_TokenStream (src "(a b, c) d"))))) /\
    Forall (Forall (fun t =>
                      token_is (new_TokenStream (src "(a b, c) d"))
                               (src ",") t = false /\
                      token_is (new_TokenStream (src "(a b, c) d"))
                               (src ")") t = false))
           groups.
Proof.
  apply (token_groups_hold_the_tokens (src "(") (src ")") (src ",")
           (new_TokenStream (src "(a b, c) d"))).
  - apply cursor_inv_new.
  - reflexivity.
  - split; reflexivity.
Defined.

(** ** When [unwrap_parentheses] returns *)

Lemma rest_tokens_nth (s : TokenStream) (k : nat) (t : Token) :
  (0 <= pos s)%Z -> nth_error (rest_tokens s) k = Some t ->
  token_at s (pos s + Z.of_nat k) = t.
Proof.
  intros H E. unfold rest_tokens in E. rewrite nth_error_skipn in E.
  unfold token_at.
  replace (Z.to_nat (pos s + Z.of_nat k)) with (Z.to_nat (pos s) + k) by lia.
  now apply nth_error_nth.
Qed.

Lemma take_until_length (p : Token -> bool) (l : list Token) :
  length (take_until p l) <= length l.
Proof.
  induction l as [|t l IH]; simpl; [lia|].
  destruct (p t); simpl; lia.
Qed.

Lemma take_until_ext (p q : Token -> bool) (l : list Token) :
  (forall t, p t = q t) -> take_until p l = take_until q l.
Proof.
  intros H. induction l as [|t l IH]; simpl; [reflexivity|].
  now rewrite H, IH.
Qed.

(** X15: on a stream that satisfies the invariant, a call of
    [unwrap_parentheses] that returns started on a ["("], returns the
    tokens after it up to the first [")"], and has moved the cursor over
    two [")"] tokens that follow one another: the one that ended the list
    and the one its last assertion consumed. *)
Theorem unwrap_parentheses_consumes_two_closers
        (s s' : TokenStream) (result : list Token) :
  cursor_inv s -> (size s < 2 ^ 64)%Z ->
  unwrap_parentheses s = Ok result s' ->
  cursor_on s (src "(") /\
  result = take_until (token_is s (src ")")) (rest_tokens (pos_incr s)) /\
  token_is s (src ")")
           (token_at s (pos s + 1 + Z.of_nat (length result))) = true /\
  token_is s (src ")")
           (token_at s (pos s + 2 + Z.of_nat (length result))) = true /\
  (pos s + 2 + Z.of_nat (length result) < size s)%Z /\
  s' = set_pos s (pos s + 3 + Z.of_nat (length result)).
Proof.
  intros H Hs E.
  unfold unwrap_parentheses, bind, assert_ in E.
  destruct (consume_cases (src "(") s) as [[On C]|[_ C]]; rewrite C in E;
    [|discriminate].
  split; [exact On|]. destruct On as [K _].
  destruct (pos_incr_inv s H K) as (I1 & _ & P1). specialize (P1 Hs).
  rewrite (get_list_until_returns [src ")"] true (pos_incr s) I1 Hs) in E.
  assert (Same : take_until (is_end_token (pos_incr s) [src ")"])
                            (rest_tokens (pos_incr s)) =
                 take_until (token_is s (src ")"))
                            (rest_tokens (pos_incr s))).
  { apply take_until_ext. intros t.
    unfold is_end_token, token_is. simpl. apply orb_false_r. }
  rewrite Same in E.
  set (taken := take_until (token_is s (src ")"))
                           (rest_tokens (pos_incr s))) in *.
  set (s1 := set_pos (pos_incr s) (pos_after_list (pos_incr s) true taken))
    in *.
  destruct (consume_cases (src ")") s1) as [[[K1 T1] C1]|[_ C1]];
    rewrite C1 in E; [|discriminate].
  unfold ret in E. inversion E; subst result s'. clear E.
  split; [reflexivity|].
  destruct (take_until_prefix (token_is s (src ")"))
                              (rest_tokens (pos_incr s)))
    as (Pre & _ & Stop).
  fold taken in Pre, Stop.
  pose proof (take_until_length (token_is s (src ")"))
                                (rest_tokens (pos_incr s))) as Len.
  fold taken in Len.
  pose proof (length_rest_tokens (pos_incr s) I1) as LR.
  change (size (pos_incr s)) with (size s) in LR.
  change (size s1) with (size s) in K1.
  rewrite P1 in LR.
  assert (P : pos s1 =
              (pos s + 1 + Z.of_nat (length taken) +
               (if (length taken <? length (rest_tokens (pos_incr s)))%nat
                then 1 else 0))%Z).
  { change (pos s1) with (pos_after_list (pos_incr s) true taken).
    unfold pos_after_list. rewrite P1. reflexivity. }
  destruct (length taken <? length (rest_tokens (pos_incr s))) eqn:F.
  2: { apply Nat.ltb_ge in F. lia. }
  apply Nat.ltb_lt in F.
  destruct (skipn (length taken) (rest_tokens (pos_incr s)))
    as [|t rest] eqn:Sk.
  { apply skipn_all_iff in Sk. lia. }
  assert (Nt : nth_error (rest_tokens (pos_incr s)) (length taken) = Some t).
  { rewrite Pre. rewrite nth_error_app2, Nat.sub_diag by lia.
    reflexivity. }
  apply rest_tokens_nth in Nt; [|destruct I1; assumption].
  rewrite P1 in Nt.
  change (token_at (pos_incr s)) with (token_at s) in Nt.
  split.
  { rewrite Nt. exact Stop. }
  split.
  { replace (pos s + 2 + Z.of_nat (length taken))%Z with (pos s1) by lia.
    exact T1. }
  split; [lia|].
  unfold pos_incr. change (set_pos s1) with (set_pos s). f_equal.
  rewrite wrap64_small; destruct H; lia.
Qed.

(** The stream of "(a, b))", which holds the second parenthesis. *)
Lemma unwrap_parentheses_consumes_two_closers_witness :
  cursor_on (new_TokenStream (src "(a, b))")) (src "(") /\
  [mkToken LITERAL (mkStringRef 1 2) 0 1;
   mkToken OPERATOR (mkStringRef 2 3) 0 2;
   mkToken LITERAL (mkStringRef 4 5) 0 4] =
    take_until (token_is (new_TokenStream (src "(a, b))")) (src ")"))
               (rest_tokens (pos_incr (new_TokenStream (src "(a, b))")))) /\
  token_is (new_TokenStream (src "(a, b))")) (src ")")
           (token_at (new_TokenStream (src "(a, b))"))
                     (pos (new_TokenStream (src "(a, b))")) + 1 + 3)) = true /\
  token_is (new_TokenStream (src "(a, b))")) (src ")")
           (token_at (new_TokenStream (src "(a, b))"))
                     (pos (new_TokenStream (src "(a, b))")) + 2 + 3)) = true /\
  (pos (new_TokenStream (src "(a, b))")) + 2 + 3 <
   size (new_TokenStream (src "(a, b))")))%Z /\
  set_pos (new_TokenStream (src "(a, b))")) 6 =
    set_pos (new_TokenStream (src "(a, b))"))
            (pos (new_TokenStream (src "(a, b))")) + 3 + 3).
Proof.
  apply (unwrap_parentheses_consumes_two_closers
           (new_TokenStream (src "(a, b))"))
           (set_pos (new_TokenStream (src "(a, b))")) 6)
           [mkToken LITERAL (mkStringRef 1 2) 0 1;
            mkToken OPERATOR (mkStringRef 2 3) 0 2;
            mkToken LITERAL (mkStringRef 4 5) 0 4]).
  - apply cursor_inv_new.
  - reflexivity.
  - vm_compute. reflexivity.
Defined.

(** ** Moving the cursor by hand *)

(** X16: under the invariant [move_forward] and [move_back] undo one another
    wherever the first of the two succeeds; [move_back] fails exactly at
    the first token and [move_forward] exactly at the end of the stream. *)
Theorem move_forward_back_round_trip (s : TokenStream) :
  cursor_inv s -> (size s < 2 ^ 64)%Z ->
  ((pos s < size s)%Z ->
   move_forward s = Ok tt (pos_incr s) /\
   move_back (pos_incr s) = Ok tt s) /\
  ((0 < pos s)%Z ->
   move_back s = Ok tt (pos_decr s) /\
   move_forward (pos_decr s) = Ok tt s) /\
  (pos s = 0%Z ->
   move_back s =
   AssertFail
     "Attempted to move back before the beginning of the token stream") /\
  (pos s = size s ->
   move_forward s =
   AssertFail
     "Attempted to move forward past the end of the token stream").
Proof.
  intros [H0 H1] Hs. unfold move_forward, move_back.
  split; [|split; [|split]].
  - intros K.
    assert (P : pos (pos_incr s) = (pos s + 1)%Z).
    { unfold pos_incr. simpl. apply wrap64_small. lia. }
    rewrite P.
    replace (pos s <? size s)%Z with true by (symmetry; apply Z.ltb_lt; lia).
    replace (pos s + 1 >? 0)%Z with true by (symmetry; apply Z.gtb_lt; lia).
    split; [reflexivity|]. f_equal.
    unfold pos_decr. rewrite P.
    replace (pos s + 1 - 1)%Z with (pos s) by lia.
    change (set_pos (pos_incr s)) with (set_pos s).
    rewrite wrap64_small by lia. now apply set_pos_same.
  - intros K.
    assert (P : pos (pos_decr s) = (pos s - 1)%Z).
    { unfold pos_decr. simpl. apply wrap64_small. lia. }
    rewrite P. change (size (pos_decr s)) with (size s).
    replace (pos s >? 0)%Z with true by (symmetry; apply Z.gtb_lt; lia).
    replace (pos s - 1 <? size s)%Z with true
      by (symmetry; apply Z.ltb_lt; lia).
    split; [reflexivity|]. f_equal.
    unfold pos_incr. rewrite P.
    replace (pos s - 1 + 1)%Z with (pos s) by lia.
    change (set_pos (pos_decr s)) with (set_pos s).
    rewrite wrap64_small by lia. now apply set_pos_same.
  - intros ->. reflexivity.
  - intros ->. now rewrite Z.ltb_irrefl.
Qed.

(** At the start of the stream of "a b". *)
Lemma move_forward_back_round_trip_witness :
  move_forward (new_TokenStream (src "a b")) =
    Ok tt (pos_incr (new_TokenStream (src "a b"))) /\
  move_back (pos_incr (new_TokenStream (src "a b"))) =
    Ok tt (new_TokenStream (src "a b")).
Proof.
  apply (move_forward_back_round_trip (new_TokenStream (src "a b"))).
  - apply cursor_inv_new.
  - reflexivity.
  - reflexivity.
Defined.

(** ** Reporting an error *)

Lemma static_cast_int_small (z : Z) :
  (0 <= z < 2 ^ 31)%Z -> static_cast_int z = z.
Proof.
  intros H. unfold static_cast_int.
  rewrite Z.mod_small; lia.
Qed.

(** X17: on the stream of a source of fewer than 2^31 characters, with the
    cursor on any of its tokens, [print_error_at_current] does not fail and
    leaves the stream as it is: the line it asks [get_line] for exists,
    the text it writes quotes that line, and the caret it draws under the
    line stands at the column where the text of the token starts in it. *)
Theorem print_error_at_current_points_at_token
        (input message : list ascii) (p : Z) :
  (Z.of_nat (length input) < 2 ^ 31)%Z ->
  (0 <= p < size (new_TokenStream input))%Z ->
  exists text : list ascii,
    get_line (line (token_at (new_TokenStream input) p))
             (set_pos (new_TokenStream input) p) =
      Ok text (set_pos (new_TokenStream input) p) /\
    print_error_at_current message (set_pos (new_TokenStream input) p) =
      Ok (src "Error at line " ++
          decimal (line (token_at (new_TokenStream input) p) + 1) ++
          src ", col " ++
          decimal (col (token_at (new_TokenStream input) p)) ++
          src ": " ++ message ++ [newline] ++
          text ++ [newline] ++
          repeat " "%char
                 (Z.to_nat (col (token_at (new_TokenStream input) p))) ++
          src "^" ++ [newline])
         (set_pos (new_TokenStream input) p) /\
    str input (value (token_at (new_TokenStream input) p)) =
      firstn (length_ (value (token_at (new_TokenStream input) p)))
             (skipn (Z.to_nat (col (token_at (new_TokenStream input) p)))
                    text).
Proof.
  intros Hin Hp.
  set (s0 := new_TokenStream input) in *.
  set (t := token_at s0 p).
  destruct (tokenize_line_facts input) as (_ & _ & T & L).
  rewrite Forall_forall in T.
  destruct (T t) as (k & text & off & H1 & H2 & H3 & H4 & H5 & H6 & H7 & H8).
  { apply (token_at_in s0 p Hp). }
  exists text.
  assert (G : get_line (line t) (set_pos s0 p) = Ok text (set_pos s0 p)).
  { unfold get_line. simpl lines.
    assert (Kl : k < length (lines_ (tokenize input))).
    { apply nth_error_Some. rewrite H2. discriminate. }
    rewrite static_cast_int_small by lia.
    rewrite H1.
    replace (Z.of_nat k >=? 0)%Z with true by (symmetry; apply Z.geb_le; lia).
    replace (Z.of_nat k <? Z.of_nat (length (lines_ (tokenize input))))%Z
      with true by (symmetry; apply Z.ltb_lt; lia).
    simpl. rewrite Nat2Z.id. f_equal. now apply nth_error_nth. }
  split; [exact G|]. split.
  - unfold print_error_at_current.
    change (pos (set_pos s0 p)) with p.
    change (size (set_pos s0 p)) with (size s0).
    change (token_at (set_pos s0 p) p) with t.
    replace (p <? size s0)%Z with true by (symmetry; apply Z.ltb_lt; lia).
    unfold bind. rewrite G. reflexivity.
  - rewrite H7, Nat2Z.id. now apply token_on_line_text.
Qed.

(** The cursor on the second token of the two-line source "x" / "yy". *)
Lemma print_error_at_current_points_at_token_witness :
  exists text : list ascii,
    get_line (line (token_at (new_TokenStream ["x"; newline; "y"; "y"]) 1))
             (set_pos (new_TokenStream ["x"; newline; "y"; "y"]) 1) =
      Ok text (set_pos (new_TokenStream ["x"; newline; "y"; "y"]) 1) /\
    print_error_at_current (src "bad")
        (set_pos (new_TokenStream ["x"; newline; "y"; "y"]) 1) =
      Ok (src "Error at line " ++
          decimal (line (token_at
                           (new_TokenStream ["x"; newline; "y"; "y"]) 1) + 1)
          ++ src ", col " ++
          decimal (col (token_at
                          (new_TokenStream ["x"; newline; "y"; "y"]) 1)) ++
          src ": " ++ src "bad" ++ [newline] ++
          text ++ [newline] ++
          repeat " "%char
                 (Z.to_nat
                    (col (token_at
                            (new_TokenStream ["x"; newline; "y"; "y"]) 1))) ++
          src "^" ++ [newline])
         (set_pos (new_TokenStream ["x"; newline; "y"; "y"]) 1) /\
    str ["x"; newline; "y"; "y"]
        (value (token_at (new_TokenStream ["x"; newline; "y"; "y"]) 1)) =
      firstn (length_
                (value (token_at
                          (new_TokenStream ["x"; newline; "y"; "y"]) 1)))
             (skipn (Z.to_nat
                       (col (token_at
                               (new_TokenStream ["x"; newline; "y"; "y"]) 1)))
                    text).
Proof.
  apply (print_error_at_current_points_at_token
           ["x"; newline; "y"; "y"] (src "bad") 1).
  - reflexivity.
  - split; [discriminate|reflexivity].
Defined.
